(** * Consistency model of the vulnerability database

    Shallow embedding of [internal/database/validate.go] (the file
    inventory pass and the cross-index consistency pass), of the version
    ordering of [internal/report], and of the index construction that
    feeds the validator. *)

From Stdlib Require Import ZArith Lia Ascii.
From stdpp Require Import gmap strings list fin_maps.

Local Open Scope string_scope.
Local Open Scope list_scope.

(** ** Time

    A [time.Time] is represented by its instant, counted from Go's zero
    [Time] (January 1, year 1, 00:00:00 UTC).  Go represents instants
    before the zero value as well, so the offset is a signed integer.
    The database stores UTC timestamps without a monotonic reading, for
    which [==] on [time.Time] values is equality of instants. *)

Abbreviation Time := Z (only parsing).

Definition zeroTime : Time := 0%Z.

(** [t.After(u)] *)
Definition After (t u : Time) : bool := bool_decide (u < t)%Z.

(** ** OSV entries, as far as the database reads them

    The fields are those that [new_test.go] fills in.  The field
    [Affected] of an entry is [AffectedList] here and the field [Package]
    of an affected package [AffectedPackage], since the record types have
    these names; [DatabaseSpecificURL] and [Imports] stand for the nested
    [DatabaseSpecific.URL] and [EcosystemSpecific.Imports]. *)

Record RangeEvent := {
  Introduced : string;
  Fixed : string }.

Record AffectsRange := {
  RangeType : string;
  Events : list RangeEvent }.

Record Package := {
  Name : string;
  Ecosystem : string }.

Record EcosystemSpecificImport := {
  Path : string;
  Symbols : list string }.

Record Affected := {
  AffectedPackage : Package;
  Ranges : list AffectsRange;
  DatabaseSpecificURL : string;
  Imports : list EcosystemSpecificImport }.

Record Reference := {
  RefType : string;
  URL : string }.

Record Entry := {
  ID : string;
  Published : Time;
  Modified : Time;
  Aliases : list string;
  Details : string;
  AffectedList : list Affected;
  References : list Reference }.

#[global] Instance RangeEvent_eq_dec : EqDecision RangeEvent.
Proof. solve_decision. Defined.
#[global] Instance AffectsRange_eq_dec : EqDecision AffectsRange.
Proof. solve_decision. Defined.
#[global] Instance Package_eq_dec : EqDecision Package.
Proof. solve_decision. Defined.
#[global] Instance EcosystemSpecificImport_eq_dec : EqDecision EcosystemSpecificImport.
Proof. solve_decision. Defined.
#[global] Instance Affected_eq_dec : EqDecision Affected.
Proof. solve_decision. Defined.
#[global] Instance Reference_eq_dec : EqDecision Reference.
Proof. solve_decision. Defined.
#[global] Instance Entry_eq_dec : EqDecision Entry.
Proof. solve_decision. Defined.

(** [reflect.DeepEqual] on two [*osv.Entry]: the pointed-to values are
    compared field by field. *)
Definition DeepEqual (a b : Entry) : bool := bool_decide (a = b).

(** ** The database *)

Record DBMeta := { DBModified : Time }.

Record Database := {
  DB : DBMeta;
  (* module path -> last modified time of the module *)
  Index : gmap string Time;
  (* Go ID -> entry *)
  EntriesByID : gmap string Entry;
  (* module path -> entries of the module *)
  EntriesByModule : gmap string (list Entry);
  (* alias (CVE or GHSA) -> Go IDs *)
  IDsByAlias : gmap string (list string) }.

(** ** Errors

    One constructor per [fmt.Errorf] of the validator, carrying the values
    that the message formats. *)

Inductive Error :=
  | ErrWalk (err : string)
  | ErrNonJSON (path : string)
  | ErrUnexpectedID (id : string)
  | ErrUnescape (path err : string)
  | ErrUnexpectedModule (unescaped : string)
  | ErrLengthMismatch (il ml : nat)
  | ErrNoModuleDirectory (module : string)
  | ErrNoAdvisoryInModule (id module : string)
  | ErrInconsistentContents (id : string)
  | ErrIncorrectModified (module : string) (want got : Time)
  | ErrModuleNotFound (module id : string)
  | ErrNoEntryInModule (id module : string)
  | ErrAliasNotFound (alias id : string)
  | ErrNotListedAsAlias (entryID alias : string)
  | ErrNoAdvisoryUnderAlias (goID alias : string)
  | ErrNotReferencingAlias (goID alias : string)
  | ErrDuplicateID (id : string).

#[global] Instance Error_eq_dec : EqDecision Error.
Proof. solve_decision. Defined.

(** A Go [error] result: [None] is [nil]. *)
Abbreviation result := (option Error) (only parsing).

(** [c >>> k]: run [k] only if [c] returned [nil]. *)
Definition andThen (c k : result) : result :=
  match c with
  | Some e => Some e
  | None => k
  end.
Infix ">>>" := andThen (at level 62, right associativity).

(** [for _, x := range l { if err := body x; err != nil { return err } }] *)
Fixpoint forRange {A} (body : A → result) (l : list A) : result :=
  match l with
  | [] => None
  | x :: l' => body x >>> forRange body l'
  end.

(** A [range] over a Go map visits every key once, in an order that the
    language leaves open; [map_to_list] fixes one such order. *)
Definition forRangeMap {V} (body : string → V → result) (m : gmap string V) : result :=
  forRange (λ kv, body kv.1 kv.2) (map_to_list m).

(** ** checkInternalConsistency *)

(** The inner loop over the entries of one indexed module: accumulates
    [wantModified] and compares each entry with the one stored by ID. *)
Fixpoint checkModuleEntries (d : Database) (module : string)
    (entries : list Entry) (wantModified : Time) : Error + Time :=
  match entries with
  | [] => inr wantModified
  | entry :: rest =>
      let wantModified :=
        if After (Modified entry) wantModified then Modified entry else wantModified in
      match EntriesByID d !! ID entry with
      | None => inl (ErrNoAdvisoryInModule (ID entry) module)
      | Some entryByID =>
          if DeepEqual entry entryByID
          then checkModuleEntries d module rest wantModified
          else inl (ErrInconsistentContents (ID entry))
      end
  end.

(** Body of [for module, modified := range d.Index]. *)
Definition checkIndexedModule (d : Database) (module : string) (modified : Time) : result :=
  match EntriesByModule d !! module with
  | Some ((_ :: _) as entries) =>
      match checkModuleEntries d module entries zeroTime with
      | inl err => Some err
      | inr wantModified =>
          if bool_decide (modified ≠ wantModified)
          then Some (ErrIncorrectModified module wantModified modified)
          else None
      end
  | _ => Some (ErrNoModuleDirectory module)
  end.

(** [for _, gotEntry := range entries { if gotEntry.ID == id { found = true; break } }] *)
Definition foundEntry (id : string) (entries : list Entry) : bool :=
  existsb (λ gotEntry, bool_decide (ID gotEntry = id)) entries.

(** [for _, gotID := range gotEntries { if gotID == id { found = true; break } }] *)
Definition foundID (id : string) (gotEntries : list string) : bool :=
  existsb (λ gotID, bool_decide (gotID = id)) gotEntries.

(** Body of [for _, affected := range entry.Affected]. *)
Definition checkAffected (d : Database) (id : string) (affected : Affected) : result :=
  let module := Name (AffectedPackage affected) in
  match EntriesByModule d !! module with
  | Some ((_ :: _) as entries) =>
      if foundEntry id entries then None
      else Some (ErrNoEntryInModule id module)
  | _ => Some (ErrModuleNotFound module id)
  end.

(** Body of [for _, alias := range entry.Aliases]. *)
Definition checkAlias (d : Database) (id : string) (entry : Entry) (alias : string) : result :=
  match IDsByAlias d !! alias with
  | Some ((_ :: _) as gotEntries) =>
      if foundID id gotEntries then None
      else Some (ErrNotListedAsAlias (ID entry) alias)
  | _ => Some (ErrAliasNotFound alias id)
  end.

(** Body of [for id, entry := range d.EntriesByID]. *)
Definition checkEntryByID (d : Database) (id : string) (entry : Entry) : result :=
  forRange (checkAffected d id) (AffectedList entry) >>>
  forRange (checkAlias d id entry) (Aliases entry).

(** [slices.Contains] *)
Definition Contains (l : list string) (x : string) : bool := bool_decide (x ∈ l).

(** Body of [for _, goID := range goIDs] under [for alias, goIDs := range d.IDsByAlias]. *)
Definition checkAliasedID (d : Database) (alias goID : string) : result :=
  match EntriesByID d !! goID with
  | None => Some (ErrNoAdvisoryUnderAlias goID alias)
  | Some entry =>
      if Contains (Aliases entry) alias then None
      else Some (ErrNotReferencingAlias goID alias)
  end.

Definition checkLengths (d : Database) : result :=
  let il := size (Index d) in
  let ml := size (EntriesByModule d) in
  if bool_decide (il ≠ ml) then Some (ErrLengthMismatch il ml) else None.

Definition checkInternalConsistency (d : Database) : result :=
  checkLengths d >>>
  forRangeMap (checkIndexedModule d) (Index d) >>>
  forRangeMap (checkEntryByID d) (EntriesByID d) >>>
  forRangeMap (λ alias goIDs, forRange (checkAliasedID d alias) goIDs) (IDsByAlias d).

(** ** What the check decides *)

(** One step of the running maximum kept in [wantModified]. *)
Definition later (w : Time) (entry : Entry) : Time :=
  if After (Modified entry) w then Modified entry else w.

(** The value of [wantModified] after the loop over [entries]. *)
Definition wantModifiedOf (entries : list Entry) : Time :=
  foldl later zeroTime entries.

(** The relation between the four maps that the check decides. *)
Record consistent (d : Database) : Prop := {
  cons_sizes : size (Index d) = size (EntriesByModule d);
  cons_index : ∀ module modified, Index d !! module = Some modified →
    ∃ entries, EntriesByModule d !! module = Some entries ∧ entries ≠ [] ∧
      (∀ e, e ∈ entries → EntriesByID d !! ID e = Some e) ∧
      modified = wantModifiedOf entries;
  cons_affected : ∀ id entry affected,
    EntriesByID d !! id = Some entry → affected ∈ AffectedList entry →
    ∃ entries, EntriesByModule d !! Name (AffectedPackage affected) = Some entries ∧
      ∃ g, g ∈ entries ∧ ID g = id;
  cons_aliases : ∀ id entry alias,
    EntriesByID d !! id = Some entry → alias ∈ Aliases entry →
    ∃ ids, IDsByAlias d !! alias = Some ids ∧ id ∈ ids;
  cons_by_alias : ∀ alias goIDs goID,
    IDsByAlias d !! alias = Some goIDs → goID ∈ goIDs →
    ∃ entry, EntriesByID d !! goID = Some entry ∧ alias ∈ Aliases entry }.

(** ** Test data of [new_test.go] *)

(** Instants are in nanoseconds. *)
Definition seconds (s : Z) : Time := (s * 1000000000)%Z.

Definition jan1999 : Time := seconds 63050745600.
Definition jan2000 : Time := seconds 63082281600.
Definition jan2002 : Time := seconds 63145440000.
Definition jan2003 : Time := seconds 63176976000.

Definition semverRange (events : list RangeEvent) : AffectsRange :=
  {| RangeType := "SEMVER"; Events := events |}.
Definition introduced (v : string) : RangeEvent := {| Introduced := v; Fixed := "" |}.
Definition fixed (v : string) : RangeEvent := {| Introduced := ""; Fixed := v |}.

Definition testOSV1 : Entry := {|
  ID := "GO-1999-0001"; Published := jan1999; Modified := jan2000;
  Aliases := ["CVE-1999-1111"]; Details := "Some details";
  AffectedList := [
    {| AffectedPackage := {| Name := "stdlib"; Ecosystem := "Go" |};
       Ranges := [semverRange [introduced "0"; fixed "1.1.0"; introduced "1.2.0"; fixed "1.2.2"]];
       DatabaseSpecificURL := "https://pkg.go.dev/vuln/GO-1999-0001";
       Imports := [{| Path := "package"; Symbols := ["Symbol"] |}] |}];
  References := [{| RefType := "FIX"; URL := "https://example.com/cl/123" |}] |}.

Definition d1 : Database := {|
  DB := {| DBModified := jan2000 |};
  Index := {[ "stdlib" := jan2000 ]};
  EntriesByID := {[ "GO-1999-0001" := testOSV1 ]};
  EntriesByModule := {[ "stdlib" := [testOSV1] ]};
  IDsByAlias := {[ "CVE-1999-1111" := ["GO-1999-0001"] ]} |}.

(** ** checkNoUnexpectedFiles *)

(** [strings.HasSuffix], [strings.TrimPrefix], [strings.TrimSuffix] *)
Definition HasSuffix (s suffix : string) : bool :=
  bool_decide (String.length suffix ≤ String.length s)%nat &&
  String.eqb (String.substring (String.length s - String.length suffix)%nat (String.length suffix) s) suffix.

Definition TrimPrefix (s prefix : string) : string :=
  if String.prefix prefix s
  then String.substring (String.length prefix) (String.length s - String.length prefix)%nat s
  else s.

Definition TrimSuffix (s suffix : string) : string :=
  if HasSuffix s suffix
  then String.substring 0 (String.length s - String.length suffix)%nat s
  else s.

(** [filepath.Ext]: the suffix that starts at the last dot of the last
    path element, empty when that element has no dot.  The scan goes
    from the end of the path and stops at a separator. *)
Fixpoint scanExt (reversed : list ascii) (seen : list ascii) : string :=
  match reversed with
  | [] => ""
  | c :: before =>
      if Ascii.eqb c "/"%char then ""
      else if Ascii.eqb c "."%char then String.string_of_list_ascii (c :: seen)
      else scanExt before (c :: seen)
  end.

Definition Ext (path : string) : string :=
  scanExt (rev (String.list_ascii_of_string path)) [].

(** What the pass takes from outside this package: [filepath.Dir] and
    [filepath.Join], [client.UnescapeModulePath] (its result is the
    unescaped path, or the text of its error), [report.GetGoIDFromFilename]
    and the three names of the database layout. *)
Class Environment := {
  Dir : string → string;
  Join : string → string → string;
  UnescapeModulePath : string → string + string;
  GetGoIDFromFilename : string → string;
  indexFile : string;
  aliasesFile : string;
  idDirectory : string }.

(** One call of the function that [filepath.WalkDir] is given: the path,
    the name and kind of the directory entry, and the error of the walk
    for it, if any. *)
Record Visit := {
  visitPath : string;
  visitName : string;
  visitIsDir : bool;
  visitErr : option string }.

Section FileInventory.
Context `{Environment}.

Definition isIndexOrWebFile (filename ext : string) : bool :=
  String.eqb ext ".ico" ||
  String.eqb ext ".html" ||
  String.eqb ext "" ||
  String.eqb filename indexFile ||
  String.eqb filename aliasesFile.

(** The module path that a file outside the ID directory stands for. *)
Definition moduleOfPath (dbPath path : string) : string :=
  TrimSuffix (TrimPrefix (TrimPrefix path dbPath) "/") ".json".

(** The function literal passed to [filepath.WalkDir]. *)
Definition visit (d : Database) (dbPath : string) (v : Visit) : option Error :=
  match visitErr v with
  | Some err => Some (ErrWalk err)
  | None =>
      let path := visitPath v in
      let fname := visitName v in
      let ext := Ext fname in
      let dir := Dir path in
      if visitIsDir v then None
      else if String.eqb dir dbPath && isIndexOrWebFile fname ext then None
      else if negb (String.eqb ext ".json") then Some (ErrNonJSON path)
      else if String.eqb dir (Join dbPath idDirectory) then
        if String.eqb fname indexFile then None
        else
          let id := GetGoIDFromFilename fname in
          match EntriesByID d !! id with
          | None => Some (ErrUnexpectedID id)
          | Some _ => None
          end
      else
        let module := moduleOfPath dbPath path in
        match UnescapeModulePath module with
        | inl err => Some (ErrUnescape path err)
        | inr unescaped =>
            match EntriesByModule d !! unescaped with
            | None => Some (ErrUnexpectedModule unescaped)
            | Some _ => None
            end
        end
  end.

(** [filepath.WalkDir] calls the function on the root and on every file
    and directory below it in turn, and stops with the first error that
    the function returns; [walk] is that sequence of calls. *)
Definition checkNoUnexpectedFiles (d : Database) (dbPath : string)
    (walk : list Visit) : option Error :=
  forRange (visit d dbPath) walk.

Definition validate (d : Database) (dbPath : string) (walk : list Visit) : option Error :=
  checkNoUnexpectedFiles d dbPath walk >>>
  checkInternalConsistency d.

End FileInventory.

(** ** Versions

    [report.Version] is a semantic version without the leading "v";
    [Version.Before] defers to [semver.Compare] of golang.org/x/mod, which
    parses both strings and compares major, minor, patch and pre-release
    by the precedence rules of Semantic Versioning 2.0.0.  Build metadata
    is parsed and ignored; a string that does not parse is below every one
    that does, and equal to every other one that does not. *)

Inductive Identifier :=
  | Numeric (n : N)
  | AlphaNumeric (s : string).

Record parsed := {
  major : N;
  minor : N;
  patch : N;
  prerelease : list Identifier }.

Definition isDigit (c : ascii) : bool :=
  Ascii.leb "0" c && Ascii.leb c "9".

Definition isIdentChar (c : ascii) : bool :=
  (Ascii.leb "A" c && Ascii.leb c "Z") ||
  (Ascii.leb "a" c && Ascii.leb c "z") ||
  isDigit c ||
  Ascii.eqb c "-".

Fixpoint takeWhile {A} (p : A → bool) (l : list A) : list A :=
  match l with
  | x :: l' => if p x then x :: takeWhile p l' else []
  | [] => []
  end.

Fixpoint dropWhile {A} (p : A → bool) (l : list A) : list A :=
  match l with
  | x :: l' => if p x then dropWhile p l' else l
  | [] => []
  end.

(** The fields of [l] between occurrences of [sep]. *)
Fixpoint splitOn (sep : ascii) (l : list ascii) : list (list ascii) :=
  match l with
  | [] => [[]]
  | c :: l' =>
      if Ascii.eqb c sep then [] :: splitOn sep l'
      else match splitOn sep l' with
           | field :: fields => (c :: field) :: fields
           | [] => [[c]]
           end
  end.

Definition digitValue (c : ascii) : N := (N_of_ascii c - 48)%N.

Definition digitsValue (ds : list ascii) : N :=
  foldl (λ n c, (10 * n + digitValue c)%N) 0%N ds.

(** A run of digits without a leading zero, and what follows it. *)
Definition parseInt (v : list ascii) : option (N * list ascii) :=
  match takeWhile isDigit v with
  | [] => None
  | c :: more =>
      if Ascii.eqb c "0" && negb (bool_decide (more = [])) then None
      else Some (digitsValue (c :: more), dropWhile isDigit v)
  end.

Definition isNum (field : list ascii) : bool := forallb isDigit field.

Definition isBadNum (field : list ascii) : bool :=
  match field with
  | c :: _ :: _ => isNum field && Ascii.eqb c "0"
  | _ => false
  end.

Definition identifier (field : list ascii) : Identifier :=
  if isNum field then Numeric (digitsValue field)
  else AlphaNumeric (String.string_of_list_ascii field).

(** [v] starts after the hyphen; the pre-release ends at a plus sign. *)
Definition parsePrerelease (v : list ascii) : option (list Identifier * list ascii) :=
  let body := takeWhile (λ c, negb (Ascii.eqb c "+")) v in
  let fields := splitOn "." body in
  if forallb (λ c, isIdentChar c || Ascii.eqb c ".") body &&
     forallb (λ field, negb (bool_decide (field = [])) && negb (isBadNum field)) fields
  then Some (identifier <$> fields, dropWhile (λ c, negb (Ascii.eqb c "+")) v)
  else None.

(** [v] starts after the plus sign and runs to the end of the string. *)
Definition parseBuild (v : list ascii) : bool :=
  forallb (λ c, isIdentChar c || Ascii.eqb c ".") v &&
  forallb (λ field, negb (bool_decide (field = []))) (splitOn "." v).

Definition parseTail (v : list ascii) : option (list Identifier) :=
  '(pre, v) ← match v with
              | "-"%char :: v' => parsePrerelease v'
              | _ => Some ([], v)
              end;
  match v with
  | [] => Some pre
  | "+"%char :: v' => if parseBuild v' then Some pre else None
  | _ => None
  end.

Definition parse (v : string) : option parsed :=
  match String.list_ascii_of_string v with
  | "v"%char :: v =>
      '(major, v) ← parseInt v;
      match v with
      | [] => Some {| major := major; minor := 0; patch := 0; prerelease := [] |}
      | "."%char :: v =>
          '(minor, v) ← parseInt v;
          match v with
          | [] => Some {| major := major; minor := minor; patch := 0; prerelease := [] |}
          | "."%char :: v =>
              '(patch, v) ← parseInt v;
              pre ← parseTail v;
              Some {| major := major; minor := minor; patch := patch; prerelease := pre |}
          | _ => None
          end
      | _ => None
      end
  | _ => None
  end.

(** [c1] unless it is [Eq], then [c2]: the chain of
    [if c := ...; c != 0 { return c }]. *)
Definition lexc (c1 c2 : comparison) : comparison :=
  match c1 with
  | Eq => c2
  | _ => c1
  end.

Definition compareIdentifier (x y : Identifier) : comparison :=
  match x, y with
  | Numeric a, Numeric b => N.compare a b
  | Numeric _, AlphaNumeric _ => Lt
  | AlphaNumeric _, Numeric _ => Gt
  | AlphaNumeric a, AlphaNumeric b => String.compare a b
  end.

Fixpoint compareIdentifiers (x y : list Identifier) : comparison :=
  match x, y with
  | [], [] => Eq
  | [], _ :: _ => Lt
  | _ :: _, [] => Gt
  | a :: x', b :: y' => lexc (compareIdentifier a b) (compareIdentifiers x' y')
  end.

(** A version without pre-release is above the same version with one. *)
Definition comparePrerelease (x y : list Identifier) : comparison :=
  match x, y with
  | [], [] => Eq
  | [], _ :: _ => Gt
  | _ :: _, [] => Lt
  | _, _ => compareIdentifiers x y
  end.

Definition compareParsed (p q : parsed) : comparison :=
  lexc (N.compare (major p) (major q))
    (lexc (N.compare (minor p) (minor q))
       (lexc (N.compare (patch p) (patch q))
          (comparePrerelease (prerelease p) (prerelease q)))).

(** The comparison of two results of [parse]; [None] is a failed parse. *)
Definition compareParses (pv pw : option parsed) : comparison :=
  match pv, pw with
  | None, None => Eq
  | None, Some _ => Lt
  | Some _, None => Gt
  | Some pv, Some pw => compareParsed pv pw
  end.

(** [semver.Compare] *)
Definition Compare (v w : string) : comparison :=
  compareParses (parse v) (parse w).

(** [Version.V]: the version with a "v" prefix. *)
Definition V (v : string) : string := "v" +:+ v.

(** [Version.Before]: whether [v < v2]. *)
Definition Before (v v2 : string) : bool :=
  bool_decide (Compare (V v) (V v2) = Lt).

(** ** latestFixedVersion *)

(** The fixed boundaries of all events of all ranges; an event without
    one has the empty string in [Fixed]. *)
Definition allEvents (ranges : list AffectsRange) : list RangeEvent :=
  r ← ranges; Events r.

Definition fixedBoundaries (ranges : list AffectsRange) : list string :=
  e ← allEvents ranges;
  if bool_decide (Fixed e = "") then [] else [Fixed e].

(** The greatest of a list of versions, the empty string for none. *)
Definition maximumVersion (versions : list string) : string :=
  match versions with
  | [] => ""
  | v :: versions => foldl (λ best v, if Before best v then v else best) v versions
  end.

(** Modelled from the spec: [latestFixedVersion] is called by
    [new_test.go] and defined in a file that is not among the sources.
    Section 4.1 mandates a pure reducer: collect the fixed boundaries of
    all ranges, return their maximum in the version ordering, and the
    empty string when there is none. *)
Definition latestFixedVersion (ranges : list AffectsRange) : string :=
  maximumVersion (fixedBoundaries ranges).

(** ** New *)

(** The module paths of the affected packages of an entry. *)
Definition modulesOf (entry : Entry) : list string :=
  (λ affected, Name (AffectedPackage affected)) <$> AffectedList entry.

(** Insert or update [entry] in a list kept in ascending order of ID. *)
Fixpoint upsert (entry : Entry) (entries : list Entry) : list Entry :=
  match entries with
  | [] => [entry]
  | x :: rest =>
      match String.compare (ID entry) (ID x) with
      | Lt => entry :: entries
      | Eq => entry :: rest
      | Gt => x :: upsert entry rest
      end
  end.

(** Insert [id] in a list of IDs kept in ascending order, once. *)
Fixpoint insertID (id : string) (ids : list string) : list string :=
  match ids with
  | [] => [id]
  | x :: rest =>
      match String.compare id x with
      | Lt => id :: ids
      | Eq => ids
      | Gt => x :: insertID id rest
      end
  end.

Definition addModule (entry : Entry) (byModule : gmap string (list Entry))
    (module : string) : gmap string (list Entry) :=
  <[module := upsert entry (default [] (byModule !! module))]> byModule.

Definition addAlias (id : string) (byAlias : gmap string (list string))
    (alias : string) : gmap string (list string) :=
  <[alias := insertID id (default [] (byAlias !! alias))]> byAlias.

(** The maximum of a list of timestamps, the zero time for none. *)
Definition latest (times : list Time) : Time :=
  match times with
  | [] => zeroTime
  | t :: times => foldl Z.max t times
  end.

(** Enter one entry in the three indexes, unless its ID is taken. *)
Definition add (d : Database) (entry : Entry) : Error + Database :=
  match EntriesByID d !! ID entry with
  | Some _ => inl (ErrDuplicateID (ID entry))
  | None =>
      inr {| DB := DB d;
             Index := Index d;
             EntriesByID := <[ID entry := entry]> (EntriesByID d);
             EntriesByModule := foldl (addModule entry) (EntriesByModule d) (modulesOf entry);
             IDsByAlias := foldl (addAlias (ID entry)) (IDsByAlias d) (Aliases entry) |}
  end.

Fixpoint addAll (d : Database) (entries : list Entry) : Error + Database :=
  match entries with
  | [] => inr d
  | entry :: rest =>
      match add d entry with
      | inl err => inl err
      | inr d' => addAll d' rest
      end
  end.

Definition emptyDatabase : Database :=
  {| DB := {| DBModified := zeroTime |};
     Index := ∅; EntriesByID := ∅; EntriesByModule := ∅; IDsByAlias := ∅ |}.

(** The snapshot timestamps: of each module, the maximum over the entries
    listed for it; of the database, the maximum over all entries. *)
Definition stamp (entries : list Entry) (d : Database) : Database :=
  {| DB := {| DBModified := latest (Modified <$> entries) |};
     Index := (λ listed, latest (Modified <$> listed)) <$> EntriesByModule d;
     EntriesByID := EntriesByID d;
     EntriesByModule := EntriesByModule d;
     IDsByAlias := IDsByAlias d |}.

(** Modelled from the spec: [New] is called by [new_test.go] and defined
    in a file that is not among the sources.  Section 4.2: for each entry
    and each affected package, upsert into the module index, whose lists
    are in ascending order of ID; the vulnerability index has one entry
    per input entry; the alias index inverts the alias lists and has no
    empty list; the snapshot timestamp of a module is the maximum over the
    entries listed for it, that of the database the maximum over all
    entries; two entries with one ID are a construction error.  The result
    is the [Database] that the validator reads. *)
Definition New (entries : list Entry) : Error + Database :=
  match addAll emptyDatabase entries with
  | inl err => inl err
  | inr d => inr (stamp entries d)
  end.

(** The tuple (ID, modified, latest fixed version) that the module index
    lists for [entry] under [module]. *)
Definition moduleVuln (module : string) (entry : Entry) : string * Time * string :=
  (ID entry, Modified entry,
   latestFixedVersion
     (affected ← AffectedList entry;
      if bool_decide (Name (AffectedPackage affected) = module) then Ranges affected else [])).

Definition testOSV2 : Entry := {|
  ID := "GO-2000-0002"; Published := jan2000; Modified := jan2002;
  Aliases := ["CVE-1999-2222"]; Details := "Some details";
  AffectedList := [
    {| AffectedPackage := {| Name := "example.com/module"; Ecosystem := "Go" |};
       Ranges := [semverRange [introduced "0"; fixed "1.2.0"]];
       DatabaseSpecificURL := "https://pkg.go.dev/vuln/GO-2000-0002";
       Imports := [{| Path := "example.com/module/package"; Symbols := ["Symbol"] |}] |}];
  References := [{| RefType := "FIX"; URL := "https://example.com/cl/543" |}] |}.

Definition testOSV3 : Entry := {|
  ID := "GO-2000-0003"; Published := jan2000; Modified := jan2003;
  Aliases := ["CVE-1999-3333"; "GHSA-xxxx-yyyy-zzzz"]; Details := "Some details";
  AffectedList := [
    {| AffectedPackage := {| Name := "example.com/module"; Ecosystem := "Go" |};
       Ranges := [semverRange [introduced "0"; fixed "1.1.0"]];
       DatabaseSpecificURL := "https://pkg.go.dev/vuln/GO-2000-0003";
       Imports := [{| Path := "example.com/module/package"; Symbols := ["Symbol"] |}] |}];
  References := [{| RefType := "FIX"; URL := "https://example.com/cl/000" |}] |}.

(** ** Notions used in the statements *)

(** [t] is the maximum of the modified timestamps of [entries]. *)
Definition isLatestOf (t : Time) (entries : list Entry) : Prop :=
  (∃ e, e ∈ entries ∧ Modified e = t) ∧ ∀ e, e ∈ entries → (Modified e ≤ t)%Z.

(** The database with the index entry of [module] set to [modified]. *)
Definition withIndexed (d : Database) (module : string) (modified : Time) : Database :=
  {| DB := DB d;
     Index := <[module := modified]> (Index d);
     EntriesByID := EntriesByID d;
     EntriesByModule := EntriesByModule d;
     IDsByAlias := IDsByAlias d |}.

(** An entry modified one nanosecond before the zero time, alone in its
    module. *)
Definition ancientOSV : Entry := {|
  ID := "GO-0000-0001"; Published := (-1)%Z; Modified := (-1)%Z;
  Aliases := []; Details := "";
  AffectedList := [
    {| AffectedPackage := {| Name := "example.com/ancient"; Ecosystem := "Go" |};
       Ranges := []; DatabaseSpecificURL := ""; Imports := [] |}];
  References := [] |}.

Definition ancient (modified : Time) : Database := {|
  DB := {| DBModified := modified |};
  Index := {[ "example.com/ancient" := modified ]};
  EntriesByID := {[ "GO-0000-0001" := ancientOSV ]};
  EntriesByModule := {[ "example.com/ancient" := [ancientOSV] ]};
  IDsByAlias := ∅ |}.



(** A database whose index lists a module with an empty list, and one
    whose alias index has an empty list for an alias of an entry. *)
Definition emptyModule : Database := {|
  DB := {| DBModified := zeroTime |};
  Index := {[ "stdlib" := zeroTime ]};
  EntriesByID := ∅;
  EntriesByModule := {[ "stdlib" := [] ]};
  IDsByAlias := ∅ |}.

Definition emptyAlias : Database := {|
  DB := DB d1;
  Index := Index d1;
  EntriesByID := EntriesByID d1;
  EntriesByModule := EntriesByModule d1;
  IDsByAlias := {[ "CVE-1999-1111" := [] ]} |}.

(** ** The environment of the program

    [filepath.Clean], [filepath.Dir] and [filepath.Join] of the Go
    library on slash-separated paths, and the layout of the Go
    vulnerability database. *)

(** [filepath.Clean]: drop empty and "." elements, resolve ".." against
    the element before it, keep a leading "/", and give "." for an empty
    result. *)
Fixpoint cleanElements (rooted : bool) (kept elements : list string) : list string :=
  match elements with
  | [] => rev kept
  | element :: rest =>
      if String.eqb element "" || String.eqb element "." then cleanElements rooted kept rest
      else if String.eqb element ".." then
        match kept with
        | top :: below =>
            if String.eqb top ".." then cleanElements rooted (element :: kept) rest
            else cleanElements rooted below rest
        | [] =>
            if rooted then cleanElements rooted [] rest
            else cleanElements rooted [element] rest
        end
      else cleanElements rooted (element :: kept) rest
  end.

Definition Clean (path : string) : string :=
  let chars := String.list_ascii_of_string path in
  let rooted := match chars with "/"%char :: _ => true | _ => false end in
  let elements := String.string_of_list_ascii <$> splitOn "/" chars in
  let body := String.concat "/" (cleanElements rooted [] elements) in
  if rooted then "/" +:+ body
  else if String.eqb body "" then "." else body.

(** The part of [path] up to and including its last separator. *)
Definition dirPart (path : string) : string :=
  String.string_of_list_ascii
    (rev (dropWhile (λ c, negb (Ascii.eqb c "/")) (rev (String.list_ascii_of_string path)))).

(** The part of [path] after its last separator. *)
Definition basePart (path : string) : string :=
  String.string_of_list_ascii
    (rev (takeWhile (λ c, negb (Ascii.eqb c "/")) (rev (String.list_ascii_of_string path)))).

Definition isLower (c : ascii) : bool := Ascii.leb "a" c && Ascii.leb c "z".
Definition isUpper (c : ascii) : bool := Ascii.leb "A" c && Ascii.leb c "Z".

(** The inverse of the escaping that writes an upper-case letter as an
    exclamation mark and the lower-case letter. *)
Fixpoint unescapeChars (escaped : list ascii) : option (list ascii) :=
  match escaped with
  | [] => Some []
  | "!"%char :: c :: rest =>
      if isLower c
      then cons (ascii_of_N (N_of_ascii c - 32)) <$> unescapeChars rest
      else None
  | c :: rest =>
      if isUpper c || Ascii.eqb c "!" then None
      else cons c <$> unescapeChars rest
  end.

#[global] Instance slashPaths : Environment := {|
  Dir path := Clean (dirPart path);
  Join dir name :=
    if String.eqb dir "" then (if String.eqb name "" then "" else Clean name)
    else Clean (dir +:+ "/" +:+ name);
  UnescapeModulePath path :=
    match unescapeChars (String.list_ascii_of_string path) with
    | Some chars => inr (String.string_of_list_ascii chars)
    | None => inl "invalid escaped module path"
    end;
  GetGoIDFromFilename filename := TrimSuffix (basePart filename) (Ext filename);
  indexFile := "index.json";
  aliasesFile := "aliases.json";
  idDirectory := "ID" |}.

Definition file (path name : string) : Visit :=
  {| visitPath := path; visitName := name; visitIsDir := false; visitErr := None |}.
Definition directory (path name : string) : Visit :=
  {| visitPath := path; visitName := name; visitIsDir := true; visitErr := None |}.

(** The walk of the directory written for [d1]. *)
Definition walk1 : list Visit := [
  directory "db" "db";
  directory "db/ID" "ID";
  file "db/ID/GO-1999-0001.json" "GO-1999-0001.json";
  file "db/ID/index.json" "index.json";
  file "db/aliases.json" "aliases.json";
  file "db/favicon.ico" "favicon.ico";
  file "db/index.html" "index.html";
  file "db/index.json" "index.json";
  file "db/stdlib.json" "stdlib.json" ].

(** In a file inventory, [v] is one of the files that are passed over: it
    is in the top-level directory and has no extension, or the extension
    of a page or an icon, or the name of the index or of the aliases
    file. *)
Definition passedOver `{Environment} (dbPath : string) (v : Visit) : Prop :=
  Dir (visitPath v) = dbPath ∧
  (Ext (visitName v) = "" ∨ Ext (visitName v) = ".html" ∨ Ext (visitName v) = ".ico" ∨
   visitName v = indexFile ∨ visitName v = aliasesFile).

(** A three-way comparison that is a strict total order: [Eq] only for
    equal values. *)
Class StrictCompare {A} (cmp : A → A → comparison) : Prop := {
  compare_eq x y : cmp x y = Eq ↔ x = y;
  compare_antisym x y : cmp y x = CompOpp (cmp x y);
  compare_trans x y z : cmp x y = Lt → cmp y z = Lt → cmp x z = Lt }.


(** [l'] is the list [l] of a module after the upsert of [entry]: it has
    [entry], nothing else that [l] has not, and all of [l] under other
    IDs. *)
Definition upserted (entry : Entry) (l l' : list Entry) : Prop :=
  entry ∈ l' ∧
  (∀ x, x ∈ l' → x = entry ∨ x ∈ l) ∧
  (∀ x, x ∈ l → ID x ≠ ID entry → x ∈ l').

(** The three indexes hold exactly the entries [es]. *)
Record built (es : list Entry) (d : Database) : Prop := {
  built_by_ID : ∀ id e, EntriesByID d !! id = Some e ↔ e ∈ es ∧ ID e = id;
  built_by_module : ∀ module l, EntriesByModule d !! module = Some l →
    l ≠ [] ∧ ∀ x, x ∈ l ↔ x ∈ es ∧ module ∈ modulesOf x;
  built_modules : ∀ e module, e ∈ es → module ∈ modulesOf e →
    is_Some (EntriesByModule d !! module);
  built_by_alias : ∀ alias ids, IDsByAlias d !! alias = Some ids →
    ∀ g, g ∈ ids ↔ ∃ e, e ∈ es ∧ ID e = g ∧ alias ∈ Aliases e;
  built_aliases : ∀ e alias, e ∈ es → alias ∈ Aliases e →
    is_Some (IDsByAlias d !! alias) }.

(** A walk that is cut short by an error of the walk itself. *)
Definition unreadable : Visit :=
  {| visitPath := "db/ID"; visitName := "ID"; visitIsDir := true;
     visitErr := Some "permission denied" |}.

Definition walkUnreadable : list Visit :=
  [directory "db" "db"; unreadable; file "db/index.json" "index.json";
   file "db/notes.txt" "notes.txt"].

(** The database that [TestNew] expects, in the form that the validator
    reads. *)
Definition valid : Database := {|
  DB := {| DBModified := jan2003 |};
  Index := {[ "example.com/module" := jan2003; "stdlib" := jan2000 ]};
  EntriesByID :=
    {[ "GO-1999-0001" := testOSV1; "GO-2000-0002" := testOSV2; "GO-2000-0003" := testOSV3 ]};
  EntriesByModule :=
    {[ "example.com/module" := [testOSV2; testOSV3]; "stdlib" := [testOSV1] ]};
  IDsByAlias :=
    {[ "CVE-1999-1111" := ["GO-1999-0001"]; "CVE-1999-2222" := ["GO-2000-0002"];
       "CVE-1999-3333" := ["GO-2000-0003"]; "GHSA-xxxx-yyyy-zzzz" := ["GO-2000-0003"] ]} |}.


(** ** The check under any order of iteration

    The three [range] loops over maps, each in an order of its own. *)

Record Order := {
  indexOrder : list (string * Time);
  byIDOrder : list (string * Entry);
  byAliasOrder : list (string * list string) }.

(** The orders in which the maps of [d] can be ranged over. *)
Definition rangesOver (d : Database) (o : Order) : Prop :=
  indexOrder o ≡ₚ map_to_list (Index d) ∧
  byIDOrder o ≡ₚ map_to_list (EntriesByID d) ∧
  byAliasOrder o ≡ₚ map_to_list (IDsByAlias d).

Definition checkInternalConsistencyIn (o : Order) (d : Database) : result :=
  checkLengths d >>>
  forRange (λ kv, checkIndexedModule d kv.1 kv.2) (indexOrder o) >>>
  forRange (λ kv, checkEntryByID d kv.1 kv.2) (byIDOrder o) >>>
  forRange (λ kv, forRange (checkAliasedID d kv.1) kv.2) (byAliasOrder o).

(** The order that [checkInternalConsistency] takes. *)
Definition mapOrder (d : Database) : Order :=
  {| indexOrder := map_to_list (Index d);
     byIDOrder := map_to_list (EntriesByID d);
     byAliasOrder := map_to_list (IDsByAlias d) |}.

(** All findings of the consistency check when the maps are ranged over
    in the order [o], in the sequence in which the check would come to
    them: the comparison of the sizes, then one finding per iteration of
    each of the three loops. *)
Definition findingsIn (o : Order) (d : Database) : list (option Error) :=
  checkLengths d ::
  ((λ kv, checkIndexedModule d kv.1 kv.2) <$> indexOrder o) ++
  ((λ kv, checkEntryByID d kv.1 kv.2) <$> byIDOrder o) ++
  ((λ kv, forRange (checkAliasedID d kv.1) kv.2) <$> byAliasOrder o).

(** A database with two findings in one loop: two modules of the index
    have an empty list. *)
Definition twoEmpty : Database := {|
  DB := {| DBModified := zeroTime |};
  Index := {[ "a.example/m" := zeroTime; "b.example/m" := zeroTime ]};
  EntriesByID := ∅;
  EntriesByModule := {[ "a.example/m" := []; "b.example/m" := [] ]};
  IDsByAlias := ∅ |}.

(** The two orders in which the index of [twoEmpty] can be ranged over. *)
Definition firstA : Order :=
  {| indexOrder := [("a.example/m", zeroTime); ("b.example/m", zeroTime)];
     byIDOrder := []; byAliasOrder := [] |}.
Definition firstB : Order :=
  {| indexOrder := [("b.example/m", zeroTime); ("a.example/m", zeroTime)];
     byIDOrder := []; byAliasOrder := [] |}.

(** A key that is absent or has an empty list. *)
Definition noneOrEmpty {A} (l : option (list A)) : Prop := l = None ∨ l = Some [].

(** What the check has established when it comes to its loops: the
    sizes agree. *)
Definition sizesAgree (d : Database) : Prop :=
  size (Index d) = size (EntriesByModule d).

(** What it has established when the loop over the index is through. *)
Definition indexChecked (d : Database) : Prop :=
  sizesAgree d ∧
  ∀ module modified, Index d !! module = Some modified →
    ∃ entries, EntriesByModule d !! module = Some entries ∧ entries ≠ [] ∧
      (∀ e, e ∈ entries → EntriesByID d !! ID e = Some e) ∧
      modified = wantModifiedOf entries.

(** What it has established when the loop over the entries is through. *)
Definition byIDChecked (d : Database) : Prop :=
  (∀ id entry affected,
     EntriesByID d !! id = Some entry → affected ∈ AffectedList entry →
     ∃ entries, EntriesByModule d !! Name (AffectedPackage affected) = Some entries ∧
       ∃ g, g ∈ entries ∧ ID g = id) ∧
  (∀ id entry alias,
     EntriesByID d !! id = Some entry → alias ∈ Aliases entry →
     ∃ ids, IDsByAlias d !! alias = Some ids ∧ id ∈ ids).

(** What an error of the consistency check says about the database: what
    the checks before it have established, where the finding is, and what
    is missing there.

    The two errors of a comparison, of the contents of an entry and of
    the timestamp of a module, say where the two values are that were
    compared.  That the values differ is not said: the code compares
    them as Go values ([reflect.DeepEqual], [!=] on [time.Time]), which
    tells apart more than the entries and instants here.

    The error for an ID that an alias does not list is found for a key
    [id] of [EntriesByID] and prints the field [ID] of the entry stored
    there; the two are the same when the entry has an affected package,
    and need not be otherwise. *)
Definition explains (d : Database) (err : Error) : Prop :=
  match err with
  | ErrLengthMismatch il ml =>
      il = size (Index d) ∧ ml = size (EntriesByModule d) ∧ il ≠ ml
  | ErrNoModuleDirectory module =>
      sizesAgree d ∧
      is_Some (Index d !! module) ∧ noneOrEmpty (EntriesByModule d !! module)
  | ErrNoAdvisoryInModule id module =>
      sizesAgree d ∧
      is_Some (Index d !! module) ∧
      ∃ entries e, EntriesByModule d !! module = Some entries ∧ e ∈ entries ∧
        ID e = id ∧ EntriesByID d !! id = None
  | ErrInconsistentContents id =>
      sizesAgree d ∧
      ∃ module entries e e', is_Some (Index d !! module) ∧
        EntriesByModule d !! module = Some entries ∧ e ∈ entries ∧
        ID e = id ∧ EntriesByID d !! id = Some e'
  | ErrIncorrectModified module want got =>
      sizesAgree d ∧
      Index d !! module = Some got ∧
      ∃ entries, EntriesByModule d !! module = Some entries ∧ entries ≠ [] ∧
        (∀ e, e ∈ entries → EntriesByID d !! ID e = Some e) ∧
        want = wantModifiedOf entries
  | ErrModuleNotFound module id =>
      indexChecked d ∧
      ∃ entry affected, EntriesByID d !! id = Some entry ∧
        affected ∈ AffectedList entry ∧ Name (AffectedPackage affected) = module ∧
        noneOrEmpty (EntriesByModule d !! module)
  | ErrNoEntryInModule id module =>
      indexChecked d ∧
      ∃ entry affected entries, EntriesByID d !! id = Some entry ∧
        affected ∈ AffectedList entry ∧ Name (AffectedPackage affected) = module ∧
        EntriesByModule d !! module = Some entries ∧ entries ≠ [] ∧
        ∀ g, g ∈ entries → ID g ≠ id
  | ErrAliasNotFound alias id =>
      indexChecked d ∧
      ∃ entry, EntriesByID d !! id = Some entry ∧ alias ∈ Aliases entry ∧
        noneOrEmpty (IDsByAlias d !! alias) ∧
        (AffectedList entry ≠ [] → ID entry = id)
  | ErrNotListedAsAlias entryID alias =>
      indexChecked d ∧
      ∃ id entry ids, EntriesByID d !! id = Some entry ∧ ID entry = entryID ∧
        alias ∈ Aliases entry ∧ IDsByAlias d !! alias = Some ids ∧ ids ≠ [] ∧
        (id ∉ ids) ∧
        (AffectedList entry ≠ [] → entryID = id)
  | ErrNoAdvisoryUnderAlias goID alias =>
      indexChecked d ∧ byIDChecked d ∧
      ∃ ids, IDsByAlias d !! alias = Some ids ∧ goID ∈ ids ∧ EntriesByID d !! goID = None
  | ErrNotReferencingAlias goID alias =>
      indexChecked d ∧ byIDChecked d ∧
      ∃ ids entry, IDsByAlias d !! alias = Some ids ∧ goID ∈ ids ∧
        EntriesByID d !! goID = Some entry ∧ alias ∉ Aliases entry
  | ErrWalk _ | ErrNonJSON _ | ErrUnexpectedID _ | ErrUnescape _ _
  | ErrUnexpectedModule _ | ErrDuplicateID _ => False
  end.

(** An entry stored under a key that is not its ID, with an alias that
    lists the ID and not the key. *)
Definition mislabelledOSV : Entry := {|
  ID := "GO-1999-0001"; Published := jan1999; Modified := jan2000;
  Aliases := ["CVE-1999-1111"]; Details := "Some details";
  AffectedList := []; References := [] |}.

Definition mislabelled : Database := {|
  DB := {| DBModified := zeroTime |};
  Index := ∅;
  EntriesByID := {[ "GO-1999-0009" := mislabelledOSV ]};
  EntriesByModule := ∅;
  IDsByAlias := {[ "CVE-1999-1111" := ["GO-1999-0001"] ]} |}.

(** ** What the file inventory expects *)

(** What the file inventory wants of one call of the walk. *)
Definition expected `{Environment} (d : Database) (dbPath : string) (v : Visit) : Prop :=
  visitErr v = None ∧
  (visitIsDir v = true ∨
   passedOver dbPath v ∨
   (Ext (visitName v) = ".json" ∧
    ((Dir (visitPath v) = Join dbPath idDirectory ∧
      (visitName v = indexFile ∨
       is_Some (EntriesByID d !! GetGoIDFromFilename (visitName v)))) ∨
     (Dir (visitPath v) ≠ Join dbPath idDirectory ∧
      ∃ unescaped, UnescapeModulePath (moduleOfPath dbPath (visitPath v)) = inr unescaped ∧
        is_Some (EntriesByModule d !! unescaped))))).

(** The database [d1] without its module lists. *)
Definition missingModule : Database := {|
  DB := DB d1;
  Index := ∅;
  EntriesByID := EntriesByID d1;
  EntriesByModule := ∅;
  IDsByAlias := IDsByAlias d1 |}.

(** The affected package of [testOSV1]. *)
Definition affectedStdlib : Affected :=
  {| AffectedPackage := {| Name := "stdlib"; Ecosystem := "Go" |};
     Ranges := [semverRange [introduced "0"; fixed "1.1.0"; introduced "1.2.0"; fixed "1.2.2"]];
     DatabaseSpecificURL := "https://pkg.go.dev/vuln/GO-1999-0001";
     Imports := [{| Path := "package"; Symbols := ["Symbol"] |}] |}.

(** ** More of [report.Version] *)

(** [Version.IsValid]: [semver.IsValid] of the version with its prefix,
    which is whether it parses. *)
Definition IsValid (v : string) : bool :=
  match parse (V v) with
  | Some _ => true
  | None => false
  end.

(** ** Reports and their conversion to CVE records

    [report.ToCVE] and its helpers, and [addTODOs] of the vulnreport
    command.  The declarations of [Report], [Module], [Package],
    [Reference] and of the CVE schema are in files that are not among the
    sources; the records have the fields that these functions use.  The
    field [Module] of a module is [ModulePath] here, the field [Package]
    of a package [PackagePath], the field [Type] of a reference
    [ReferenceType] and the field [Description] of the CVE metadata
    [MetaDescription]. *)

Module report.

Record VersionRange := {
  Introduced : string;
  Fixed : string }.

Record Package := {
  PackagePath : string;
  Symbols : list string }.

Record ReportModule := {
  ModulePath : string;
  Versions : list VersionRange;
  VulnerableAt : string;
  Packages : list Package }.

Record Reference := {
  ReferenceType : string;
  URL : string }.

Record CVEMeta := {
  ID : string;
  CWE : string;
  MetaDescription : string }.

Record Report := {
  Excluded : string;
  Modules : list ReportModule;
  Description : string;
  CVEs : list string;
  GHSAs : list string;
  Credit : string;
  References : list Reference;
  CVEMetadata : option CVEMeta }.

End report.

Module cveschema.

Record LangString := {
  Lang : string;
  Value : string }.

Record VersionDataItem := {
  VersionValue : string;
  VersionAffected : string }.

Record ProductDataItem := {
  ProductName : string;
  Version : list VersionDataItem }.

Record VendorDataItem := {
  VendorName : string;
  Product : list ProductDataItem }.

(** A CVE record; [Description], [ProblemType], [Affects] and
    [References] are the [Data] of the nested structures, and
    [RawCredit] is the value that is marshalled into it. *)
Record CVE := {
  DataType : string;
  DataFormat : string;
  DataVersion : string;
  MetadataID : string;
  Assigner : string;
  State : string;
  Description : list LangString;
  ProblemType : list (list LangString);
  Affects : list VendorDataItem;
  References : list string;
  RawCredit : list LangString }.

End cveschema.

(** What the conversion takes from outside its file: [strings.TrimSpace],
    [derrors.Wrap] on an error, [GetGoAdvisoryLink], the module paths of
    the standard library and of the toolchain, the state of a public CVE,
    and the types of references. *)
Class ReportEnvironment := {
  TrimSpace : string → string;
  GetGoAdvisoryLink : string → string;
  stdlibModulePath : string;
  stdlibToolchainModulePath : string;
  StatePublic : string;
  ReferenceTypeAdvisory : string;
  ReferenceTypeArticle : string;
  ReferenceTypeReport : string;
  ReferenceTypeFix : string;
  ReferenceTypeWeb : string }.

(** The errors of [ToCVE]: that of [ReadAndLint], the missing metadata,
    and either of them wrapped by [derrors.Wrap], which is given a format
    and its argument. *)
Inductive ReportError :=
  | ErrReadAndLint (err : string)
  | ErrNoCVEMetadata
  | Wrapped (format arg : string) (err : ReportError).

Definition newline : ascii := "010"%char.

(** [newlines.ReplaceAllString(s, " ")] for the expression [\n+]: every
    maximal run of newlines becomes one space; [inRun] says that the
    character before was a newline of the current run. *)
Fixpoint replaceNewlines (inRun : bool) (s : list ascii) : list ascii :=
  match s with
  | [] => []
  | c :: rest =>
      if Ascii.eqb c newline
      then (if inRun then replaceNewlines true rest
            else " "%char :: replaceNewlines true rest)
      else c :: replaceNewlines false rest
  end.

Section Conversion.
Context `{Environment} `{ReportEnvironment}.

Definition getVendor (modulePath : string) : string :=
  if String.eqb modulePath stdlibModulePath then "Go standard library"
  else if String.eqb modulePath stdlibToolchainModulePath then "Go toolchain"
  else modulePath.

Definition removeNewlines (s : string) : string :=
  String.string_of_list_ascii
    (replaceNewlines false (String.list_ascii_of_string (TrimSpace s))).

(** One iteration of the loop of [versionToVersion]. *)
Definition appendVersionRange (data : list cveschema.VersionDataItem)
    (vr : report.VersionRange) : list cveschema.VersionDataItem :=
  let data :=
    if negb (String.eqb (report.Introduced vr) "")
    then data ++ [{| cveschema.VersionValue := report.Introduced vr;
                     cveschema.VersionAffected := ">=" |}]
    else data in
  if negb (String.eqb (report.Fixed vr) "")
  then data ++ [{| cveschema.VersionValue := report.Fixed vr;
                   cveschema.VersionAffected := "<" |}]
  else data.

Definition versionToVersion (versions : list report.VersionRange)
    : list cveschema.VersionDataItem :=
  foldl appendVersionRange [] versions.

(** The body of [ToCVE] after the report has been read. *)
Definition toCVE (r : report.Report) (reportPath : string)
    : ReportError + cveschema.CVE :=
  match report.CVEMetadata r with
  | None => inl ErrNoCVEMetadata
  | Some meta =>
      let description :=
        if String.eqb (report.MetaDescription meta) "" then report.Description r
        else report.MetaDescription meta in
      let vendors :=
        foldl (λ data m,
                 let pkgData :=
                   foldl (λ pkgData p,
                            pkgData ++
                            [{| cveschema.ProductName := report.PackagePath p;
                                cveschema.Version := versionToVersion (report.Versions m) |}])
                         [] (report.Packages m) in
                 data ++ [{| cveschema.VendorName := getVendor (report.ModulePath m);
                             cveschema.Product := pkgData |}])
              [] (report.Modules r) in
      let references :=
        foldl (λ data ref, data ++ [report.URL ref]) [] (report.References r) in
      let goAdvisory := GetGoAdvisoryLink (GetGoIDFromFilename reportPath) in
      inr {| cveschema.DataType := "CVE";
             cveschema.DataFormat := "MITRE";
             cveschema.DataVersion := "4.0";
             cveschema.MetadataID := report.ID meta;
             cveschema.Assigner := "security@golang.org";
             cveschema.State := StatePublic;
             cveschema.Description :=
               [{| cveschema.Lang := "eng"; cveschema.Value := removeNewlines description |}];
             cveschema.ProblemType :=
               [[{| cveschema.Lang := "eng"; cveschema.Value := report.CWE meta |}]];
             cveschema.Affects := vendors;
             cveschema.References := references ++ [goAdvisory];
             cveschema.RawCredit :=
               [{| cveschema.Lang := "eng";
                   cveschema.Value := removeNewlines (report.Credit r) |}] |}
  end.

(** [ToCVE]: [ReadAndLint] is defined in a file that is not among the
    sources and is taken as it is given; the deferred [derrors.Wrap]
    wraps whichever error is returned. *)
Definition ToCVE (ReadAndLint : string → ReportError + report.Report)
    (reportPath : string) : ReportError + cveschema.CVE :=
  let result :=
    match ReadAndLint reportPath with
    | inl err => inl err
    | inr r => toCVE r reportPath
    end in
  match result with
  | inl err => inl (Wrapped "report.ToCVE(%q)" reportPath err)
  | inr c => inr c
  end.

Definition todo : string := "TODO: fill this out".

(** The body of the loop of [addTODOs] over the packages of a module. *)
Definition addPackageTODOs (p : report.Package) : report.Package :=
  {| report.PackagePath :=
       if String.eqb (report.PackagePath p) "" then todo else report.PackagePath p;
     report.Symbols :=
       match report.Symbols p with
       | [] => [todo]
       | symbols => symbols
       end |}.

(** The body of the loop of [addTODOs] over the modules. *)
Definition addModuleTODOs (m : report.ReportModule) : report.ReportModule :=
  {| report.ModulePath :=
       if String.eqb (report.ModulePath m) "" then todo else report.ModulePath m;
     report.Versions :=
       match report.Versions m with
       | [] => [{| report.Introduced := todo; report.Fixed := todo |}]
       | versions => versions
       end;
     report.VulnerableAt :=
       if String.eqb (report.VulnerableAt m) "" then todo else report.VulnerableAt m;
     report.Packages := addPackageTODOs <$> report.Packages m |}.

Definition todoReferences : list report.Reference := [
  {| report.ReferenceType := ReferenceTypeAdvisory; report.URL := "TODO: canonical security advisory" |};
  {| report.ReferenceType := ReferenceTypeArticle; report.URL := "TODO: article or blog post" |};
  {| report.ReferenceType := ReferenceTypeReport; report.URL := "TODO: issue tracker link" |};
  {| report.ReferenceType := ReferenceTypeFix; report.URL := "TODO: PR or commit" |};
  {| report.ReferenceType := ReferenceTypeWeb; report.URL := "TODO: web page of some unspecified kind" |} ].

(** [addTODOs] changes the report in place; the result is the report
    afterwards. *)
Definition addTODOs (r : report.Report) : report.Report :=
  if negb (String.eqb (report.Excluded r) "") then r
  else
    let modules :=
      match report.Modules r with
      | [] => [{| report.ModulePath := ""; report.Versions := [];
                  report.VulnerableAt := "";
                  report.Packages := [{| report.PackagePath := ""; report.Symbols := [] |}] |}]
      | modules => modules
      end in
    {| report.Excluded := report.Excluded r;
       report.Modules := addModuleTODOs <$> modules;
       report.Description :=
         if String.eqb (report.Description r) "" then todo else report.Description r;
       report.CVEs :=
         match report.CVEs r with
         | [] => [todo]
         | cves => cves
         end;
       report.GHSAs := report.GHSAs r;
       report.Credit :=
         if String.eqb (report.Credit r) "" then todo else report.Credit r;
       report.References := report.References r ++ todoReferences;
       report.CVEMetadata := report.CVEMetadata r |}.

End Conversion.

(** The items that [versionToVersion] gives for one range. *)
Definition versionItems (vr : report.VersionRange) : list cveschema.VersionDataItem :=
  (if bool_decide (report.Introduced vr = "") then []
   else [{| cveschema.VersionValue := report.Introduced vr;
            cveschema.VersionAffected := ">=" |}]) ++
  (if bool_decide (report.Fixed vr = "") then []
   else [{| cveschema.VersionValue := report.Fixed vr;
            cveschema.VersionAffected := "<" |}]).

(** The version values of the items with the given comparison. *)
Definition valuesWith (affected : string) (data : list cveschema.VersionDataItem)
    : list string :=
  item ← data;
  if bool_decide (cveschema.VersionAffected item = affected)
  then [cveschema.VersionValue item] else [].

(** The strings of a list that are not empty. *)
Definition nonEmpty (l : list string) : list string :=
  s ← l; if bool_decide (s = "") then [] else [s].

(** A package, a module and a report without an unfilled field. *)
Definition filledPackage (p : report.Package) : Prop :=
  report.PackagePath p ≠ "" ∧ report.Symbols p ≠ [].

Definition filledModule (m : report.ReportModule) : Prop :=
  report.ModulePath m ≠ "" ∧ report.Versions m ≠ [] ∧ report.VulnerableAt m ≠ "" ∧
  ∀ p, p ∈ report.Packages m → filledPackage p.

Definition filledReport (r : report.Report) : Prop :=
  report.Modules r ≠ [] ∧ (∀ m, m ∈ report.Modules r → filledModule m) ∧
  report.Description r ≠ "" ∧ report.Credit r ≠ "" ∧ report.CVEs r ≠ [].

(** The tail of a version after the patch number, with the build
    metadata that [parse] records: the pre-release identifiers and the
    build, which starts at its plus sign. *)
Definition parseTailWhole (v : list ascii) : option (list Identifier * list ascii) :=
  '(pre, v) ← match v with
              | "-"%char :: v' => parsePrerelease v'
              | _ => Some ([], v)
              end;
  match v with
  | [] => Some (pre, [])
  | "+"%char :: v' => if parseBuild v' then Some (pre, v) else None
  | _ => None
  end.

(** [parse] of golang.org/x/mod/semver with all that it records: the
    numbers and the pre-release as in [parse] above, the suffix [short]
    that a version without minor or patch number lacks, and the build
    metadata. *)
Definition parseChars (v : list ascii) : option (parsed * list ascii * list ascii) :=
  match v with
  | "v"%char :: v =>
      '(major, v) ← parseInt v;
      match v with
      | [] => Some ({| major := major; minor := 0; patch := 0; prerelease := [] |},
                    String.list_ascii_of_string ".0.0", [])
      | "."%char :: v =>
          '(minor, v) ← parseInt v;
          match v with
          | [] => Some ({| major := major; minor := minor; patch := 0; prerelease := [] |},
                        String.list_ascii_of_string ".0", [])
          | "."%char :: v =>
              '(patch, v) ← parseInt v;
              '(pre, build) ← parseTailWhole v;
              Some ({| major := major; minor := minor; patch := patch; prerelease := pre |},
                    [], build)
          | _ => None
          end
      | _ => None
      end
  | _ => None
  end.

(** [semver.Canonical]: the empty string for a version that does not
    parse, else the version without its build metadata and with the minor
    and patch numbers that it lacks. *)
Definition semverCanonical (v : string) : string :=
  let chars := String.list_ascii_of_string v in
  match parseChars chars with
  | None => ""
  | Some (_, short, build) =>
      String.string_of_list_ascii
        (if negb (bool_decide (build = [])) then take (length chars - length build) chars
         else if negb (bool_decide (short = [])) then chars ++ short
         else chars)
  end.

(** [Version.Canonical] *)
Definition Canonical (v : string) : string :=
  TrimPrefix (semverCanonical (V v)) "v".

(** A concrete environment for reports, for running the conversion on
    examples: white space is trimmed as for strings of ASCII characters. *)
Definition isSpace (c : ascii) : bool :=
  Ascii.eqb c " " || (Ascii.leb "009" c && Ascii.leb c "013").

Definition trimSpaceASCII (s : string) : string :=
  String.string_of_list_ascii
    (rev (dropWhile isSpace (rev (dropWhile isSpace (String.list_ascii_of_string s))))).

#[global] Instance goReports : ReportEnvironment := {|
  TrimSpace := trimSpaceASCII;
  GetGoAdvisoryLink id := "https://pkg.go.dev/vuln/" +:+ id;
  stdlibModulePath := "stdlib";
  stdlibToolchainModulePath := "toolchain";
  StatePublic := "PUBLIC";
  ReferenceTypeAdvisory := "ADVISORY";
  ReferenceTypeArticle := "ARTICLE";
  ReferenceTypeReport := "REPORT";
  ReferenceTypeFix := "FIX";
  ReferenceTypeWeb := "WEB" |}.

(** A report with nothing filled in. *)
Definition blankReport : report.Report := {|
  report.Excluded := ""; report.Modules := []; report.Description := "";
  report.CVEs := []; report.GHSAs := []; report.Credit := "";
  report.References := []; report.CVEMetadata := None |}.

(** ** Entries of the walk *)

(** The name of a directory entry: not empty, not "." or "..", and
    without a separator. *)
Definition noSeparator (chars : list ascii) : bool :=
  forallb (λ c, negb (Ascii.eqb c "/")) chars.

Definition isEntryName (name : string) : bool :=
  negb (String.eqb name "") && negb (String.eqb name ".") &&
  negb (String.eqb name "..") && noSeparator (String.list_ascii_of_string name).

(** [filepath.WalkDir] presents an entry of the root under the path that
    [filepath.Join] makes of the root, as it was given, and the name of
    the entry; and an entry of a directory below the root under the path
    made in the same way of the path of that directory.  [topLevel]: the
    visit is of an entry of the root [dbPath]; [belowTopLevel]: of an
    entry of a directory that is [names] below the root. *)
Definition topLevel (dbPath : string) (v : Visit) : Prop :=
  isEntryName (visitName v) = true ∧ visitPath v = Join dbPath (visitName v).

Definition belowTopLevel (dbPath : string) (v : Visit) : Prop :=
  isEntryName (visitName v) = true ∧
  ∃ names, names ≠ [] ∧ Forall (λ name, isEntryName name = true) names ∧
    visitPath v = Join (foldl Join dbPath names) (visitName v).

(** The parts of [Clean]: whether the path is rooted, its elements, the
    elements kept (the last one first), and the path written for them. *)
Definition rootedPath (path : string) : bool :=
  match String.list_ascii_of_string path with
  | "/"%char :: _ => true
  | _ => false
  end.

Definition elementsOf (path : string) : list string :=
  String.string_of_list_ascii <$> splitOn "/" (String.list_ascii_of_string path).

Fixpoint keptAfter (rooted : bool) (kept elements : list string) : list string :=
  match elements with
  | [] => kept
  | element :: rest =>
      if String.eqb element "" || String.eqb element "." then keptAfter rooted kept rest
      else if String.eqb element ".." then
        match kept with
        | top :: below =>
            if String.eqb top ".." then keptAfter rooted (element :: kept) rest
            else keptAfter rooted below rest
        | [] =>
            if rooted then keptAfter rooted [] rest
            else keptAfter rooted [element] rest
        end
      else keptAfter rooted (element :: kept) rest
  end.

Definition keptOf (path : string) : list string :=
  keptAfter (rootedPath path) [] (elementsOf path).

Definition render (rooted : bool) (elements : list string) : string :=
  let body := String.concat "/" elements in
  if rooted then "/" +:+ body
  else if String.eqb body "" then "." else body.

(** The elements that [Clean] keeps, the last one first: names, after
    ".." elements at the start of a path that is not rooted. *)
Fixpoint keptOK (rooted : bool) (kept : list string) : bool :=
  match kept with
  | [] => true
  | element :: below =>
      if String.eqb element ".."
      then negb rooted && forallb (λ e, String.eqb e "..") below
      else isEntryName element && keptOK rooted below
  end.

(** The fields joined by separators. *)
Fixpoint joined (fields : list (list ascii)) : list ascii :=
  match fields with
  | [] => []
  | [field] => field
  | field :: rest => field ++ "/"%char :: joined rest
  end.

(** The walk of the same directory when the root is given as "db/":
    [filepath.Join] makes the same paths for the entries. *)
Definition walkSlash : list Visit := [
  directory "db/" "db";
  directory "db/ID" "ID";
  file "db/ID/GO-1999-0001.json" "GO-1999-0001.json";
  file "db/ID/index.json" "index.json";
  file "db/aliases.json" "aliases.json";
  file "db/favicon.ico" "favicon.ico";
  file "db/index.html" "index.html";
  file "db/index.json" "index.json";
  file "db/stdlib.json" "stdlib.json" ].

(** What follows a run: nothing, or something that is not of the run. *)
Definition stops {A} (p : A → bool) (r : list A) : Prop :=
  match r with
  | [] => True
  | c :: _ => p c = false
  end.

(** * Proofs *)

(** ** Generic facts about sequenced checks *)

Lemma andThen_None (c k : option Error) : c >>> k = None ↔ c = None ∧ k = None.
Proof. destruct c; simpl; [split; [done | by intros [? _]] | tauto]. Qed.

Lemma andThen_Some_l (c k : option Error) e : c = Some e → c >>> k = Some e.
Proof. by intros ->. Qed.

Lemma andThen_None_l (c k : option Error) : c = None → c >>> k = k.
Proof. by intros ->. Qed.

Lemma forRange_None {A} (body : A → option Error) l :
  forRange body l = None ↔ ∀ x, x ∈ l → body x = None.
Proof.
  induction l as [|x l IH]; simpl.
  - split; [intros _ x Hx; by apply elem_of_nil in Hx | done].
  - rewrite andThen_None, IH. split.
    + intros [Hx Hl] y Hy. apply elem_of_cons in Hy as [->|Hy]; auto.
    + intros H. split; [apply H; left | intros y Hy; apply H; by right].
Qed.

(** The loop returns the finding of the first iteration that has one; the
    iterations after it do not matter. *)
Lemma forRange_first {A} (body : A → option Error) l1 x l2 e :
  (∀ y, y ∈ l1 → body y = None) → body x = Some e →
  forRange body (l1 ++ x :: l2) = Some e.
Proof.
  intros Hl1 Hx. induction l1 as [|y l1 IH]; simpl.
  - by rewrite Hx.
  - rewrite (Hl1 y) by left. simpl. apply IH. intros z Hz. apply Hl1. by right.
Qed.

(** When a single element has a finding, that finding is the result,
    wherever the element comes in the order of iteration. *)
Lemma forRange_only {A} `{EqDecision A} (body : A → option Error) l x e :
  x ∈ l → body x = Some e → (∀ y, y ∈ l → y ≠ x → body y = None) →
  forRange body l = Some e.
Proof.
  intros Hin Hx Hothers. induction l as [|y l IH]; [inversion Hin|].
  simpl. destruct (decide (y = x)) as [->|Hne].
  - by rewrite Hx.
  - rewrite (Hothers y); [simpl | by left | done].
    apply IH.
    + apply elem_of_cons in Hin as [->|]; done.
    + intros z Hz. apply Hothers. by right.
Qed.

Lemma forRangeMap_None {V} (body : string → V → option Error) (m : gmap string V) :
  forRangeMap body m = None ↔ ∀ k v, m !! k = Some v → body k v = None.
Proof.
  unfold forRangeMap. rewrite forRange_None. split.
  - intros H k v Hkv. apply (H (k, v)). by apply elem_of_map_to_list.
  - intros H [k v] Hkv. apply H. by apply elem_of_map_to_list.
Qed.

(** ** What the consistency check accepts *)

Lemma later_max w entry : later w entry = Z.max w (Modified entry).
Proof. unfold later, After. case_bool_decide; lia. Qed.

Lemma foldl_later_spec l w :
  (w ≤ foldl later w l)%Z ∧
  (∀ e, e ∈ l → (Modified e ≤ foldl later w l)%Z) ∧
  (foldl later w l = w ∨ foldl later w l ∈ Modified <$> l).
Proof.
  revert w. induction l as [|e l IH]; intros w; simpl.
  - split_and!; [lia | by intros e ?%elem_of_nil | by left].
  - destruct (IH (later w e)) as (Hle & Hall & Hin).
    rewrite later_max in *. split_and!.
    + lia.
    + intros e' [->|He']%elem_of_cons; [lia | auto].
    + destruct Hin as [Hin|Hin].
      * rewrite Hin. destruct (Z.max_spec w (Modified e)) as [[_ ->]|[_ ->]];
          [right; left | by left].
      * right. by right.
Qed.

Lemma checkModuleEntries_inr d module entries w w' :
  checkModuleEntries d module entries w = inr w' ↔
  (∀ e, e ∈ entries → EntriesByID d !! ID e = Some e) ∧ w' = foldl later w entries.
Proof.
  revert w. induction entries as [|e l IH]; intros w; simpl.
  - split; [intros [= ->]; split; [by intros e ?%elem_of_nil | done] | by intros [_ ->]].
  - fold (later w e). destruct (EntriesByID d !! ID e) as [e'|] eqn:He.
    + unfold DeepEqual. case_bool_decide as Heq.
      * subst e'. rewrite IH. split.
        -- intros [H ->]. split; [|done].
           intros x [->|Hx]%elem_of_cons; auto.
        -- intros [H ->]. split; [|done]. intros x Hx. apply H. by right.
      * split; [done|]. intros [H _]. specialize (H e). rewrite He in H.
        exfalso. apply Heq. assert (Some e' = Some e) as [= ->] by (apply H; left). done.
    + split; [done|]. intros [H _]. specialize (H e). rewrite He in H.
      discriminate H. left.
Qed.

(** A finding of the inner loop names an entry of the module whose copy
    by ID is missing or different. *)
Lemma checkModuleEntries_inl d module entries w err :
  checkModuleEntries d module entries w = inl err →
  ∃ e, e ∈ entries ∧
    ((EntriesByID d !! ID e = None ∧ err = ErrNoAdvisoryInModule (ID e) module) ∨
     (∃ e', EntriesByID d !! ID e = Some e' ∧ e' ≠ e ∧ err = ErrInconsistentContents (ID e))).
Proof.
  revert w. induction entries as [|e l IH]; intros w; simpl; [done|].
  destruct (EntriesByID d !! ID e) as [e'|] eqn:He.
  - unfold DeepEqual. case_bool_decide as Heq.
    + intros (x & Hx & H)%IH. exists x. split; [by right | done].
    + intros [= <-]. exists e. split; [left|]. right. exists e'. split_and!; congruence.
  - intros [= <-]. exists e. split; [left|]. by left.
Qed.

Lemma checkIndexedModule_None d module modified :
  checkIndexedModule d module modified = None ↔
  ∃ entries, EntriesByModule d !! module = Some entries ∧ entries ≠ [] ∧
    (∀ e, e ∈ entries → EntriesByID d !! ID e = Some e) ∧
    modified = wantModifiedOf entries.
Proof.
  unfold checkIndexedModule, wantModifiedOf.
  destruct (EntriesByModule d !! module) as [[|e l]|] eqn:Hm.
  - split; [done | by intros (? & [= <-] & ? & _)].
  - destruct (checkModuleEntries d module (e :: l) zeroTime) as [err|w] eqn:Hc.
    + split; [done|]. intros (l' & Hl' & _ & Hall & _).
      injection Hl' as <-.
      assert (checkModuleEntries d module (e :: l) zeroTime = inr (foldl later zeroTime (e :: l)))
        as Hr by (by apply checkModuleEntries_inr).
      congruence.
    + apply checkModuleEntries_inr in Hc as [Hall ->].
      case_bool_decide as Hne.
      * split; [done|]. intros (l' & Hl' & _ & _ & ?). by injection Hl' as <-.
      * split; [|done]. intros _. by exists (e :: l).
  - split; [done | by intros (? & [=] & _)].
Qed.

Lemma foundEntry_true id entries :
  foundEntry id entries = true ↔ ∃ g, g ∈ entries ∧ ID g = id.
Proof.
  unfold foundEntry. rewrite existsb_exists. split.
  - intros (g & Hg%list_elem_of_In & Hid%bool_decide_eq_true). eauto.
  - intros (g & Hg & Hid). exists g. split; [by apply list_elem_of_In | by apply bool_decide_eq_true].
Qed.

Lemma foundID_true id gotEntries : foundID id gotEntries = true ↔ id ∈ gotEntries.
Proof.
  unfold foundID. rewrite existsb_exists. split.
  - by intros (g & Hg%list_elem_of_In & ->%bool_decide_eq_true).
  - intros Hin. exists id. split; [by apply list_elem_of_In | by apply bool_decide_eq_true].
Qed.

Lemma checkAffected_None d id affected :
  checkAffected d id affected = None ↔
  ∃ entries, EntriesByModule d !! Name (AffectedPackage affected) = Some entries ∧
    ∃ g, g ∈ entries ∧ ID g = id.
Proof.
  unfold checkAffected.
  destruct (EntriesByModule d !! _) as [[|e l]|] eqn:Hm.
  - split; [done|]. intros (? & [= <-] & g & ?%elem_of_nil & _). done.
  - destruct (foundEntry id (e :: l)) eqn:Hf.
    + split; [|done]. intros _. exists (e :: l). split; [done|]. by apply foundEntry_true.
    + split; [done|]. intros (? & [= <-] & Hg%foundEntry_true). congruence.
  - split; [done | by intros (? & [=] & _)].
Qed.

Lemma checkAlias_None d id entry alias :
  checkAlias d id entry alias = None ↔
  ∃ ids, IDsByAlias d !! alias = Some ids ∧ id ∈ ids.
Proof.
  unfold checkAlias.
  destruct (IDsByAlias d !! alias) as [[|g l]|] eqn:Hm.
  - split; [done|]. intros (? & [= <-] & ?%elem_of_nil). done.
  - destruct (foundID id (g :: l)) eqn:Hf.
    + split; [|done]. intros _. exists (g :: l). split; [done|]. by apply foundID_true.
    + split; [done|]. intros (? & [= <-] & Hg%foundID_true). congruence.
  - split; [done | by intros (? & [=] & _)].
Qed.

Lemma checkAliasedID_None d alias goID :
  checkAliasedID d alias goID = None ↔
  ∃ entry, EntriesByID d !! goID = Some entry ∧ alias ∈ Aliases entry.
Proof.
  unfold checkAliasedID, Contains.
  destruct (EntriesByID d !! goID) as [entry|] eqn:He.
  - case_bool_decide as Hin.
    + split; [|done]. intros _. eauto.
    + split; [done|]. by intros (? & [= <-] & ?).
  - split; [done | by intros (? & [=] & _)].
Qed.


Lemma checkLengths_None d :
  checkLengths d = None ↔ size (Index d) = size (EntriesByModule d).
Proof. unfold checkLengths. case_bool_decide; split; done. Qed.

Lemma checkEntryByID_None d id entry :
  checkEntryByID d id entry = None ↔
  (∀ affected, affected ∈ AffectedList entry → checkAffected d id affected = None) ∧
  (∀ alias, alias ∈ Aliases entry → checkAlias d id entry alias = None).
Proof. unfold checkEntryByID. by rewrite andThen_None, !forRange_None. Qed.

Theorem checkInternalConsistency_None d :
  checkInternalConsistency d = None ↔ consistent d.
Proof.
  unfold checkInternalConsistency.
  rewrite !andThen_None, checkLengths_None, !forRangeMap_None. split.
  - intros (Hsz & Hidx & Hid & Hal). split.
    + done.
    + intros m t Hm. by apply checkIndexedModule_None, Hidx.
    + intros id e a He Ha. apply (checkAffected_None d id a).
      by apply (proj1 (checkEntryByID_None d id e) (Hid id e He)).
    + intros id e al He Hal'. apply (checkAlias_None d id e al).
      by apply (proj1 (checkEntryByID_None d id e) (Hid id e He)).
    + intros al ids g Hids Hg. apply checkAliasedID_None.
      specialize (Hal al ids Hids). rewrite forRange_None in Hal. by apply Hal.
  - intros [Hsz Hidx Haff Hal Hby]. split_and!.
    + done.
    + intros m t Hm. by apply checkIndexedModule_None, Hidx.
    + intros id e He. apply checkEntryByID_None. split.
      * intros a Ha. apply checkAffected_None. by eapply Haff.
      * intros al Hal'. apply checkAlias_None. by eapply Hal.
    + intros al ids Hids. apply forRange_None. intros g Hg.
      apply checkAliasedID_None. by eapply Hby.
Qed.

(** The same, in whatever order the maps are ranged over. *)
Lemma forRange_Permutation {A} (body : A → option Error) l l' :
  l ≡ₚ l' → forRange body l = None ↔ forRange body l' = None.
Proof.
  intros Hp. rewrite !forRange_None. split; intros Hall x Hx; apply Hall.
  - by rewrite Hp.
  - by rewrite <- Hp.
Qed.

Lemma checkInternalConsistencyIn_None o d :
  rangesOver d o → checkInternalConsistencyIn o d = None ↔ consistent d.
Proof.
  intros (Hi & He & Ha). rewrite <- checkInternalConsistency_None.
  unfold checkInternalConsistencyIn, checkInternalConsistency, forRangeMap.
  rewrite !andThen_None.
  by rewrite (forRange_Permutation _ _ _ Hi), (forRange_Permutation _ _ _ He),
    (forRange_Permutation _ _ _ Ha).
Qed.


Lemma wantModifiedOf_spec entries :
  (zeroTime ≤ wantModifiedOf entries)%Z ∧
  (∀ e, e ∈ entries → (Modified e ≤ wantModifiedOf entries)%Z) ∧
  (wantModifiedOf entries = zeroTime ∨ ∃ e, e ∈ entries ∧ Modified e = wantModifiedOf entries).
Proof.
  unfold wantModifiedOf.
  destruct (foldl_later_spec entries zeroTime) as (Hle & Hall & [Hz|Hin]).
  - split_and!; [done | done | by left].
  - split_and!; [done | done | right].
    apply list_elem_of_fmap in Hin as (e & He & Hin). eauto.
Qed.

Lemma wantModifiedOf_latest entries :
  (∃ e, e ∈ entries ∧ (zeroTime ≤ Modified e)%Z) →
  isLatestOf (wantModifiedOf entries) entries.
Proof.
  intros (e0 & He0 & Hpos).
  destruct (wantModifiedOf_spec entries) as (_ & Hall & [Hz|Hin]).
  - split; [|done]. exists e0. split; [done|].
    specialize (Hall e0 He0). rewrite Hz in *. lia.
  - split; done.
Qed.

Lemma checkModuleEntries_ext d d' module entries w :
  EntriesByID d = EntriesByID d' →
  checkModuleEntries d module entries w = checkModuleEntries d' module entries w.
Proof.
  intros Hid. revert w. induction entries as [|e l IH]; intros w; simpl; [done|].
  rewrite Hid. destruct (EntriesByID d' !! ID e); [|done].
  destruct (DeepEqual e _); auto.
Qed.

Lemma checkIndexedModule_withIndexed d module modified k v :
  checkIndexedModule (withIndexed d module modified) k v = checkIndexedModule d k v.
Proof.
  unfold checkIndexedModule. simpl.
  destruct (EntriesByModule d !! k) as [[|e l]|]; [done| |done].
  by rewrite (checkModuleEntries_ext _ d).
Qed.

(** Changing the timestamp that the index records for one module of an
    accepted database gives exactly one finding. *)
Lemma mutated_modified d module modified got :
  consistent d → Index d !! module = Some modified → got ≠ modified →
  checkInternalConsistency (withIndexed d module got) =
    Some (ErrIncorrectModified module modified got).
Proof.
  intros Hc Hm Hne. unfold checkInternalConsistency.
  rewrite andThen_None_l.
  2:{ apply checkLengths_None. simpl. rewrite map_size_insert, Hm. apply Hc. }
  apply andThen_Some_l. unfold forRangeMap.
  apply forRange_only with (x := (module, got)).
  - apply elem_of_map_to_list. simpl. apply lookup_insert_eq.
  - simpl. rewrite checkIndexedModule_withIndexed.
    destruct (cons_index d Hc module modified Hm) as (entries & He & Hnil & Hall & ->).
    unfold checkIndexedModule. rewrite He.
    destruct entries as [|e l]; [done|].
    assert (checkModuleEntries d module (e :: l) zeroTime = inr (wantModifiedOf (e :: l)))
      as -> by (by apply checkModuleEntries_inr).
    by rewrite bool_decide_eq_true_2.
  - intros [k v] Hkv Hne'. apply elem_of_map_to_list in Hkv. simpl in *.
    rewrite checkIndexedModule_withIndexed.
    destruct (decide (k = module)) as [->|Hk].
    + rewrite lookup_insert_eq in Hkv. congruence.
    + rewrite lookup_insert_ne in Hkv by done.
      apply checkInternalConsistency_None in Hc.
      unfold checkInternalConsistency in Hc.
      rewrite !andThen_None, forRangeMap_None in Hc. by apply Hc.
Qed.

Lemma rejected d : ¬ consistent d → ∃ err, checkInternalConsistency d = Some err.
Proof.
  intros Hn. destruct (checkInternalConsistency d) as [err|] eqn:Hc; [eauto|].
  by apply checkInternalConsistency_None in Hc.
Qed.

(** ** The module timestamps *)

(** C1, as stated, fails for timestamps before the zero time: the check
    accepts a database whose module records the zero time while its only
    entry was modified earlier, and rejects the one that records the
    timestamp of that entry. *)
Lemma modified_before_zero_time :
  checkInternalConsistency (ancient zeroTime) = None ∧
  Index (ancient zeroTime) !! "example.com/ancient" = Some zeroTime ∧
  EntriesByModule (ancient zeroTime) !! "example.com/ancient" = Some [ancientOSV] ∧
  ¬ isLatestOf zeroTime [ancientOSV] ∧
  isLatestOf (-1)%Z [ancientOSV] ∧
  checkInternalConsistency (ancient (-1)%Z) =
    Some (ErrIncorrectModified "example.com/ancient" zeroTime (-1)%Z).
Proof.
  split_and!; try (vm_compute; reflexivity).
  - intros [(e & ->%list_elem_of_singleton & He) _]. discriminate He.
  - split.
    + exists ancientOSV. split; [apply list_elem_of_singleton|]; reflexivity.
    + intros e ->%list_elem_of_singleton. reflexivity.
Qed.

(** C1 (amended): in a database that the consistency check accepts, the
    timestamp recorded for a module of the index is the value that the
    check computes from the entries listed for the module: the latest of
    the zero time and their modified timestamps.  It is therefore exactly
    the maximum of those timestamps as soon as one of them is not before
    the zero time.  Recording any other timestamp for the module makes the
    check fail with the timestamp error that names the module. *)
Theorem indexed_modified_is_latest d module modified :
  checkInternalConsistency d = None →
  Index d !! module = Some modified →
  ∃ entries, EntriesByModule d !! module = Some entries ∧
    (zeroTime ≤ modified)%Z ∧
    (∀ e, e ∈ entries → (Modified e ≤ modified)%Z) ∧
    (modified = zeroTime ∨ ∃ e, e ∈ entries ∧ Modified e = modified) ∧
    ((∃ e, e ∈ entries ∧ (zeroTime ≤ Modified e)%Z) → isLatestOf modified entries) ∧
    (∀ got, got ≠ modified →
       checkInternalConsistency (withIndexed d module got) =
         Some (ErrIncorrectModified module modified got)).
Proof.
  intros Hc%checkInternalConsistency_None Hm.
  destruct (cons_index d Hc module modified Hm) as (entries & He & _ & _ & Heq).
  exists entries. destruct (wantModifiedOf_spec entries) as (Hz & Hall & Hor).
  rewrite <- Heq in Hz, Hall, Hor. split_and!; try done.
  - intros Hex. rewrite Heq. by apply wantModifiedOf_latest.
  - intros got Hne. by apply mutated_modified.
Qed.

Lemma indexed_modified_is_latest_stdlib :
  checkInternalConsistency d1 = None ∧
  Index d1 !! "stdlib" = Some jan2000 ∧
  isLatestOf jan2000 [testOSV1] ∧
  checkInternalConsistency (withIndexed d1 "stdlib" jan1999) =
    Some (ErrIncorrectModified "stdlib" jan2000 jan1999).
Proof.
  assert (checkInternalConsistency d1 = None) as Hc by (vm_compute; reflexivity).
  assert (Index d1 !! "stdlib" = Some jan2000) as Hm by (vm_compute; reflexivity).
  destruct (indexed_modified_is_latest d1 "stdlib" jan2000 Hc Hm)
    as (entries & He & _ & _ & _ & Hlatest & Hmut).
  assert (Some entries = Some [testOSV1]) as [= ->] by (rewrite <- He; vm_compute; reflexivity).
  split_and!; [done | done | |].
  - apply Hlatest. exists testOSV1. split; [apply list_elem_of_singleton; reflexivity|].
    vm_compute. discriminate.
  - apply Hmut. vm_compute. discriminate.
Defined.

(** ** Entries by module and by ID *)

(** C2: for a module of the index and an entry listed under it, the
    consistency check accepts the database only if the by-ID index has,
    under the ID of that entry, an entry equal to it in every field.
    Otherwise the check fails, and the finding for the module names an
    entry of the module whose copy by ID is missing or different. *)
Theorem module_entry_equals_entry_by_ID d module modified entries entry :
  Index d !! module = Some modified →
  EntriesByModule d !! module = Some entries →
  entry ∈ entries →
  (checkInternalConsistency d = None → EntriesByID d !! ID entry = Some entry) ∧
  (EntriesByID d !! ID entry ≠ Some entry →
     (∃ err, checkInternalConsistency d = Some err) ∧
     ∃ e, e ∈ entries ∧
       ((EntriesByID d !! ID e = None ∧
         checkIndexedModule d module modified = Some (ErrNoAdvisoryInModule (ID e) module)) ∨
        (∃ e', EntriesByID d !! ID e = Some e' ∧ e' ≠ e ∧
         checkIndexedModule d module modified = Some (ErrInconsistentContents (ID e))))).
Proof.
  intros Hm He Hin.
  assert (consistent d → EntriesByID d !! ID entry = Some entry) as Hacc.
  { intros Hc. destruct (cons_index d Hc module modified Hm) as (l & Hl & _ & Hall & _).
    rewrite He in Hl. injection Hl as <-. by apply Hall. }
  split; [by intros Hc%checkInternalConsistency_None; apply Hacc|].
  intros Hne. split; [apply rejected; by intros Hc%Hacc|].
  unfold checkIndexedModule. rewrite He.
  destruct entries as [|x l]; [by apply elem_of_nil in Hin|].
  destruct (checkModuleEntries d module (x :: l) zeroTime) as [err|w] eqn:Hc.
  - apply checkModuleEntries_inl in Hc as (e & Hel & [[Hnone ->]|(e' & Hsome & Hdiff & ->)]).
    + exists e. split; [done|]. by left.
    + exists e. split; [done|]. right. by exists e'.
  - apply checkModuleEntries_inr in Hc as [Hall _]. by specialize (Hall entry Hin).
Qed.

Lemma module_entry_equals_entry_by_ID_stdlib :
  Index d1 !! "stdlib" = Some jan2000 ∧
  EntriesByModule d1 !! "stdlib" = Some [testOSV1] ∧
  testOSV1 ∈ [testOSV1] ∧
  EntriesByID d1 !! "GO-1999-0001" = Some testOSV1.
Proof.
  assert (Index d1 !! "stdlib" = Some jan2000) as Hm by (vm_compute; reflexivity).
  assert (EntriesByModule d1 !! "stdlib" = Some [testOSV1]) as He by (vm_compute; reflexivity).
  assert (testOSV1 ∈ [testOSV1]) as Hin by (apply list_elem_of_singleton; reflexivity).
  split_and!; [done..|].
  apply (module_entry_equals_entry_by_ID d1 "stdlib" jan2000 [testOSV1] testOSV1 Hm He Hin).
  vm_compute; reflexivity.
Defined.

(** ** Aliases *)

(** C5: the consistency check accepts a database only if the alias
    relation holds in both directions.  Every alias of every entry of the
    by-ID index is a key of the alias index, and the IDs listed under it
    contain the ID under which the entry is stored.  Every ID listed under
    a key of the alias index is the ID of an entry of the by-ID index, and
    the aliases of that entry contain the key. *)
Theorem aliases_bidirectional d :
  checkInternalConsistency d = None →
  (∀ id entry alias,
     EntriesByID d !! id = Some entry → alias ∈ Aliases entry →
     ∃ ids, IDsByAlias d !! alias = Some ids ∧ id ∈ ids) ∧
  (∀ alias goIDs goID,
     IDsByAlias d !! alias = Some goIDs → goID ∈ goIDs →
     ∃ entry, EntriesByID d !! goID = Some entry ∧ alias ∈ Aliases entry).
Proof.
  intros Hc%checkInternalConsistency_None. split.
  - apply (cons_aliases d Hc).
  - apply (cons_by_alias d Hc).
Qed.

Lemma aliases_bidirectional_stdlib :
  checkInternalConsistency d1 = None ∧
  (∃ ids, IDsByAlias d1 !! "CVE-1999-1111" = Some ids ∧ "GO-1999-0001" ∈ ids) ∧
  (∃ entry, EntriesByID d1 !! "GO-1999-0001" = Some entry ∧ "CVE-1999-1111" ∈ Aliases entry).
Proof.
  assert (checkInternalConsistency d1 = None) as Hc by (vm_compute; reflexivity).
  destruct (aliases_bidirectional d1 Hc) as [Hfwd Hbwd].
  split_and!; [done| |].
  - apply (Hfwd "GO-1999-0001" testOSV1); [vm_compute; reflexivity|].
    apply list_elem_of_singleton; reflexivity.
  - apply (Hbwd "CVE-1999-1111" ["GO-1999-0001"]); [vm_compute; reflexivity|].
    apply list_elem_of_singleton; reflexivity.
Defined.

(** ** Keys with an empty list *)

(** C10: a key that is present with an empty list is a finding like an
    absent key.  When the index lists a module whose list of entries is
    present and empty, the finding for the module is that it has no
    module directory, and the check returns an error.  When an alias of an
    entry of the by-ID index has a present and empty list of IDs in the
    alias index, the finding for the alias is that it was not found, and
    the check returns an error. *)
Theorem empty_list_is_rejected d :
  (∀ module modified,
     Index d !! module = Some modified → EntriesByModule d !! module = Some [] →
     checkIndexedModule d module modified = Some (ErrNoModuleDirectory module) ∧
     ∃ err, checkInternalConsistency d = Some err) ∧
  (∀ id entry alias,
     EntriesByID d !! id = Some entry → alias ∈ Aliases entry →
     IDsByAlias d !! alias = Some [] →
     checkAlias d id entry alias = Some (ErrAliasNotFound alias id) ∧
     ∃ err, checkInternalConsistency d = Some err).
Proof.
  split.
  - intros module modified Hm He. split.
    + unfold checkIndexedModule. by rewrite He.
    + apply rejected. intros Hc.
      destruct (cons_index d Hc module modified Hm) as (l & Hl & Hnil & _). congruence.
  - intros id entry alias Hid Hal Hids. split.
    + unfold checkAlias. by rewrite Hids.
    + apply rejected. intros Hc.
      destruct (cons_aliases d Hc id entry alias Hid Hal) as (ids & Hl & Hin).
      rewrite Hids in Hl. injection Hl as <-. by apply elem_of_nil in Hin.
Qed.

Lemma empty_list_is_rejected_examples :
  checkInternalConsistency emptyModule = Some (ErrNoModuleDirectory "stdlib") ∧
  checkInternalConsistency emptyAlias = Some (ErrAliasNotFound "CVE-1999-1111" "GO-1999-0001") ∧
  checkIndexedModule emptyModule "stdlib" zeroTime = Some (ErrNoModuleDirectory "stdlib") ∧
  checkAlias emptyAlias "GO-1999-0001" testOSV1 "CVE-1999-1111" =
    Some (ErrAliasNotFound "CVE-1999-1111" "GO-1999-0001").
Proof.
  split_and!; [vm_compute; reflexivity | vm_compute; reflexivity | |].
  - apply (proj1 (empty_list_is_rejected emptyModule) "stdlib" zeroTime);
      vm_compute; reflexivity.
  - apply (proj2 (empty_list_is_rejected emptyAlias) "GO-1999-0001" testOSV1 "CVE-1999-1111");
      [vm_compute; reflexivity | apply list_elem_of_singleton; reflexivity | vm_compute; reflexivity].
Defined.

(** ** The first finding *)

Lemma forRange_app {A} (body : A → option Error) l1 l2 :
  forRange body (l1 ++ l2) = forRange body l1 >>> forRange body l2.
Proof.
  induction l1 as [|x l1 IH]; simpl; [done|].
  rewrite IH. by destruct (body x).
Qed.

Lemma forRange_fmap {A} (body : A → option Error) l :
  forRange body l = forRange id (body <$> l).
Proof. induction l as [|x l IH]; simpl; [done|]. by rewrite IH. Qed.

(** In any order, the check returns the first of its findings. *)
Lemma checkInternalConsistencyIn_findings o d :
  checkInternalConsistencyIn o d = forRange id (findingsIn o d).
Proof.
  unfold checkInternalConsistencyIn, findingsIn. simpl.
  by rewrite !forRange_app, <- !forRange_fmap.
Qed.

(** ** The file inventory *)

Section FileInventoryFacts.
Context `{Environment}.

Lemma isIndexOrWebFile_true filename ext :
  isIndexOrWebFile filename ext = true ↔
  ext = "" ∨ ext = ".html" ∨ ext = ".ico" ∨ filename = indexFile ∨ filename = aliasesFile.
Proof.
  unfold isIndexOrWebFile. rewrite !orb_true_iff, !String.eqb_eq. tauto.
Qed.

(** The guard of the second case of the switch. *)
Lemma passedOver_guard dbPath v :
  String.eqb (Dir (visitPath v)) dbPath && isIndexOrWebFile (visitName v) (Ext (visitName v)) = true
  ↔ passedOver dbPath v.
Proof.
  unfold passedOver. by rewrite andb_true_iff, String.eqb_eq, isIndexOrWebFile_true.
Qed.

Lemma visit_passedOver d dbPath v :
  visitErr v = None → visitIsDir v = false → passedOver dbPath v →
  visit d dbPath v = None.
Proof.
  intros Herr Hdir Hp%passedOver_guard. unfold visit. by rewrite Herr, Hdir, Hp.
Qed.

Lemma visit_checked d dbPath v :
  visitErr v = None → visitIsDir v = false → ¬ passedOver dbPath v →
  visit d dbPath v =
    if negb (String.eqb (Ext (visitName v)) ".json") then Some (ErrNonJSON (visitPath v))
    else if String.eqb (Dir (visitPath v)) (Join dbPath idDirectory) then
      if String.eqb (visitName v) indexFile then None
      else match EntriesByID d !! GetGoIDFromFilename (visitName v) with
           | None => Some (ErrUnexpectedID (GetGoIDFromFilename (visitName v)))
           | Some _ => None
           end
    else match UnescapeModulePath (moduleOfPath dbPath (visitPath v)) with
         | inl err => Some (ErrUnescape (visitPath v) err)
         | inr unescaped =>
             match EntriesByModule d !! unescaped with
             | None => Some (ErrUnexpectedModule unescaped)
             | Some _ => None
             end
         end.
Proof.
  intros Herr Hdir Hp. unfold visit. rewrite Herr, Hdir.
  destruct (String.eqb (Dir (visitPath v)) dbPath &&
            isIndexOrWebFile (visitName v) (Ext (visitName v))) eqn:Hg; [|done].
  by apply passedOver_guard in Hg.
Qed.

Lemma visit_not_json d dbPath v :
  visitErr v = None → visitIsDir v = false → ¬ passedOver dbPath v →
  Ext (visitName v) ≠ ".json" →
  visit d dbPath v = Some (ErrNonJSON (visitPath v)).
Proof.
  intros Herr Hdir Hp Hext. rewrite visit_checked by done.
  apply String.eqb_neq in Hext. by rewrite Hext.
Qed.



End FileInventoryFacts.

(** ** Paths of the walk *)

Lemma cleanElements_keptAfter rooted kept elements :
  cleanElements rooted kept elements = rev (keptAfter rooted kept elements).
Proof.
  revert kept. induction elements as [|e rest IH]; intros kept; simpl; [done|].
  destruct (String.eqb e "" || String.eqb e "."); [apply IH|].
  destruct (String.eqb e ".."); [|apply IH].
  destruct kept as [|top below]; [destruct rooted; apply IH|].
  destruct (String.eqb top ".."); apply IH.
Qed.

Lemma Clean_render path :
  Clean path = render (rootedPath path) (rev (keptOf path)).
Proof.
  unfold Clean, render, keptOf, rootedPath, elementsOf.
  rewrite cleanElements_keptAfter.
  by destruct (String.list_ascii_of_string path) as [|[[] [] [] [] [] [] [] []] l].
Qed.

Lemma keptAfter_app rooted kept elements elements' :
  keptAfter rooted kept (elements ++ elements') =
  keptAfter rooted (keptAfter rooted kept elements) elements'.
Proof.
  revert kept. induction elements as [|e rest IH]; intros kept; simpl; [done|].
  destruct (String.eqb e "" || String.eqb e "."); [apply IH|].
  destruct (String.eqb e ".."); [|apply IH].
  destruct kept as [|top below]; [destruct rooted; apply IH|].
  destruct (String.eqb top ".."); apply IH.
Qed.

Lemma splitOn_nonempty sep l : splitOn sep l ≠ [].
Proof.
  destruct l as [|c l]; simpl; [done|].
  destruct (Ascii.eqb c sep); [done|]. by destruct (splitOn sep l).
Qed.

Lemma splitOn_app sep a b : splitOn sep (a ++ sep :: b) = splitOn sep a ++ splitOn sep b.
Proof.
  induction a as [|c a IH]; simpl.
  - by rewrite Ascii.eqb_refl.
  - rewrite IH. destruct (Ascii.eqb c sep); [done|].
    pose proof (splitOn_nonempty sep a). by destruct (splitOn sep a).
Qed.

Lemma splitOn_field l : noSeparator l = true → splitOn "/" l = [l].
Proof.
  induction l as [|c l IH]; simpl; [done|].
  intros [Hc Hl]%andb_true_iff. apply negb_true_iff in Hc. by rewrite Hc, IH.
Qed.

Lemma splitOn_fields l : Forall (λ f, noSeparator f = true) (splitOn "/" l).
Proof.
  induction l as [|c l IH]; simpl; [by repeat constructor|].
  destruct (Ascii.eqb c "/") eqn:Hc; [by constructor|].
  destruct (splitOn "/" l) as [|f fs]; [by repeat constructor; simpl; rewrite ?Hc|].
  apply Forall_cons in IH as [Hf Hfs]. constructor; [|done].
  simpl. by rewrite Hc.
Qed.

Lemma splitOn_joined fs :
  fs ≠ [] → Forall (λ f, noSeparator f = true) fs → splitOn "/" (joined fs) = fs.
Proof.
  induction fs as [|f fs IH]; [done|]. intros _ [Hf Hfs]%Forall_cons.
  destruct fs as [|g fs]; [by apply splitOn_field|].
  change (joined (f :: g :: fs)) with (f ++ "/"%char :: joined (g :: fs)).
  by rewrite splitOn_app, splitOn_field, IH.
Qed.

Lemma chars_append a b :
  String.list_ascii_of_string (a +:+ b) =
  String.list_ascii_of_string a ++ String.list_ascii_of_string b.
Proof. induction a as [|c a IH]; simpl; [done|]. by rewrite IH. Qed.

Lemma chars_concat ks :
  String.list_ascii_of_string (String.concat "/" ks) =
  joined (String.list_ascii_of_string <$> ks).
Proof.
  induction ks as [|k ks IH]; [done|].
  destruct ks as [|k' ks]; [done|].
  change (String.concat "/" (k :: k' :: ks)) with (k +:+ "/" +:+ String.concat "/" (k' :: ks)).
  rewrite !chars_append, IH. done.
Qed.

Lemma chars_inj a b :
  String.list_ascii_of_string a = String.list_ascii_of_string b → a = b.
Proof.
  intros Heq. rewrite <- (String.string_of_list_ascii_of_string a),
    <- (String.string_of_list_ascii_of_string b). by rewrite Heq.
Qed.

Lemma isEntryName_spec n :
  isEntryName n = true ↔
  n ≠ "" ∧ n ≠ "." ∧ n ≠ ".." ∧ noSeparator (String.list_ascii_of_string n) = true.
Proof.
  unfold isEntryName. rewrite !andb_true_iff, !negb_true_iff, !String.eqb_neq. tauto.
Qed.

Lemma keptAfter_name rooted kept n :
  isEntryName n = true → keptAfter rooted kept [n] = n :: kept.
Proof.
  intros (H1 & H2 & H3 & _)%isEntryName_spec. simpl.
  apply String.eqb_neq in H1, H2, H3. by rewrite H1, H2, H3.
Qed.

Lemma dotdots_keptOK kept :
  forallb (λ e, String.eqb e "..") kept = true → keptOK false kept = true.
Proof.
  induction kept as [|e kept IH]; simpl; [done|].
  intros [He Hk]%andb_true_iff. by rewrite He, Hk.
Qed.

Lemma keptOK_tail rooted e kept : keptOK rooted (e :: kept) = true → keptOK rooted kept = true.
Proof.
  simpl. destruct (String.eqb e "..").
  - intros [Hr Hk]%andb_true_iff. apply negb_true_iff in Hr as ->. by apply dotdots_keptOK.
  - by intros [_ Hk]%andb_true_iff.
Qed.

Lemma keptOK_suffix rooted a b : keptOK rooted (a ++ b) = true → keptOK rooted b = true.
Proof. induction a as [|e a IH]; simpl; [done|]. intros H%keptOK_tail. by apply IH. Qed.

Lemma keptOK_keptAfter rooted kept es :
  keptOK rooted kept = true →
  Forall (λ e, noSeparator (String.list_ascii_of_string e) = true) es →
  keptOK rooted (keptAfter rooted kept es) = true.
Proof.
  intros Hk Hes. revert kept Hk.
  induction Hes as [|e es He Hes IH]; intros kept Hk; simpl; [done|].
  destruct (String.eqb e "" || String.eqb e ".") eqn:Hskip; [by apply IH|].
  apply orb_false_iff in Hskip as [H1 H2].
  destruct (String.eqb e "..") eqn:Hdd.
  - apply String.eqb_eq in Hdd as ->.
    destruct kept as [|top below].
    + destruct rooted; by apply IH.
    + destruct (String.eqb top "..") eqn:Htop.
      * apply IH. simpl in Hk |- *. rewrite Htop in Hk. simpl. by rewrite Htop.
      * apply IH. by apply keptOK_tail in Hk.
  - apply IH. simpl. rewrite Hdd. unfold isEntryName. by rewrite H1, H2, Hdd, He, Hk.
Qed.

Lemma keptAfter_kept rooted kept ks :
  keptOK rooted (rev ks ++ kept) = true → keptAfter rooted kept ks = rev ks ++ kept.
Proof.
  revert kept. induction ks as [|e ks IH]; intros kept; [done|].
  simpl rev. rewrite <- app_assoc. simpl app. intros Hk.
  pose proof (keptOK_suffix _ _ _ Hk) as He. rewrite <- (IH (e :: kept) Hk).
  simpl in He |- *. destruct (String.eqb e "..") eqn:Hdd.
  - apply String.eqb_eq in Hdd as ->. simpl.
    apply andb_true_iff in He as [Hr Hall]. apply negb_true_iff in Hr as ->.
    destruct kept as [|top below]; [done|].
    simpl in Hall. apply andb_true_iff in Hall as [-> _]. done.
  - apply andb_true_iff in He as [(H1 & H2 & _)%isEntryName_spec _].
    apply String.eqb_neq in H1, H2. by rewrite H1, H2.
Qed.

Lemma keptOK_fields rooted kept :
  keptOK rooted kept = true →
  Forall (λ f, f ≠ [] ∧ noSeparator f = true) (String.list_ascii_of_string <$> kept).
Proof.
  induction kept as [|e kept IH]; [constructor|]. intros Hk.
  rewrite fmap_cons. constructor; [|by eapply IH, keptOK_tail].
  simpl in Hk. destruct (String.eqb e "..") eqn:Hdd.
  - by apply String.eqb_eq in Hdd as ->.
  - apply andb_true_iff in Hk as [(H1 & _ & _ & H4)%isEntryName_spec _].
    split; [|done]. intros Hnil. apply H1. by apply chars_inj.
Qed.

Lemma rev_reverse {A} (l : list A) : rev l = reverse l.
Proof. apply rev_alt. Qed.

Lemma joined_cons f fs :
  f ≠ [] → noSeparator f = true →
  ∃ c l, joined (f :: fs) = c :: l ∧ Ascii.eqb c "/" = false.
Proof.
  destruct f as [|c f]; [done|]. simpl. intros _ [Hc _]%andb_true_iff.
  apply negb_true_iff in Hc. destruct fs; eauto.
Qed.

Lemma chars_render rooted ks :
  Forall (λ f, f ≠ [] ∧ noSeparator f = true) (String.list_ascii_of_string <$> ks) →
  String.list_ascii_of_string (render rooted ks) =
    if rooted then "/"%char :: joined (String.list_ascii_of_string <$> ks)
    else match ks with
         | [] => ["."%char]
         | _ => joined (String.list_ascii_of_string <$> ks)
         end.
Proof.
  intros Hks. unfold render. destruct rooted.
  - by rewrite chars_append, chars_concat.
  - destruct ks as [|k ks]; [done|].
    rewrite fmap_cons in Hks. apply Forall_cons in Hks as [[Hne Hsep] _].
    destruct (joined_cons _ (String.list_ascii_of_string <$> ks) Hne Hsep) as (c & l & Hj & _).
    destruct (String.eqb_spec (String.concat "/" (k :: ks)) "") as [Hnil|_].
    + apply (f_equal String.list_ascii_of_string) in Hnil.
      rewrite chars_concat, fmap_cons, Hj in Hnil. done.
    + by rewrite chars_concat.
Qed.

Lemma string_of_chars (ks : list string) :
  String.string_of_list_ascii <$> (String.list_ascii_of_string <$> ks) = ks.
Proof.
  induction ks as [|k ks IH]; [done|].
  by rewrite !fmap_cons, String.string_of_list_ascii_of_string, IH.
Qed.

(** The path written for kept elements has these as its kept elements. *)
Lemma keptOf_render rooted kept :
  keptOK rooted kept = true →
  rootedPath (render rooted (rev kept)) = rooted ∧
  keptOf (render rooted (rev kept)) = kept.
Proof.
  intros Hk.
  assert (Forall (λ f, f ≠ [] ∧ noSeparator f = true)
            (String.list_ascii_of_string <$> rev kept)) as Hfs.
  { rewrite rev_reverse, fmap_reverse. apply Forall_reverse. by eapply keptOK_fields. }
  assert (keptAfter rooted [] (rev kept) = kept) as Hkept.
  { rewrite keptAfter_kept; rewrite rev_involutive, app_nil_r; done. }
  assert (rootedPath (render rooted (rev kept)) = rooted) as Hr.
  { unfold rootedPath. rewrite (chars_render _ _ Hfs). destruct rooted; [done|].
    destruct (rev kept) as [|k ks]; [done|].
    rewrite fmap_cons in Hfs |- *. apply Forall_cons in Hfs as [[Hne Hsep] _].
    destruct (joined_cons _ (String.list_ascii_of_string <$> ks) Hne Hsep)
      as (c & l & -> & Hc).
    destruct c as [[] [] [] [] [] [] [] []]; done. }
  split; [done|]. unfold keptOf. rewrite Hr. unfold elementsOf.
  rewrite (chars_render _ _ Hfs).
  destruct (rev kept) as [|k ks] eqn:Hrev.
  - rewrite <- Hkept. by destruct rooted.
  - assert (splitOn "/" (joined (String.list_ascii_of_string <$> k :: ks)) =
              (String.list_ascii_of_string <$> k :: ks)) as Hsplit.
    { apply splitOn_joined; [done|]. eapply Forall_impl; [done|]. by intros ? []. }
    destruct rooted.
    + change (splitOn "/" ("/"%char :: ?x)) with ([] :: splitOn "/" x).
      rewrite Hsplit, fmap_cons, string_of_chars. done.
    + rewrite Hsplit, string_of_chars. done.
Qed.

Lemma keptOK_keptOf path : keptOK (rootedPath path) (keptOf path) = true.
Proof.
  apply keptOK_keptAfter; [done|]. unfold elementsOf.
  apply Forall_fmap. eapply Forall_impl; [apply splitOn_fields|].
  intros f Hf. simpl. by rewrite String.list_ascii_of_string_of_list_ascii.
Qed.

(** [Clean] leaves a cleaned path as it is. *)
Lemma Clean_Clean path : Clean (Clean path) = Clean path.
Proof.
  rewrite (Clean_render path).
  destruct (keptOf_render _ _ (keptOK_keptOf path)) as [Hr Hk].
  by rewrite Clean_render, Hr, Hk.
Qed.

Lemma Clean_of_render rooted kept :
  keptOK rooted kept = true → Clean (render rooted (rev kept)) = render rooted (rev kept).
Proof.
  intros Hk. destruct (keptOf_render rooted kept Hk) as [Hr Hkept].
  by rewrite Clean_render, Hr, Hkept.
Qed.

Lemma rootedPath_append p q : p ≠ "" → rootedPath (p +:+ q) = rootedPath p.
Proof. by destruct p. Qed.

Lemma elementsOf_append p q :
  elementsOf (p +:+ "/" +:+ q) = elementsOf p ++ elementsOf q.
Proof.
  unfold elementsOf. rewrite chars_append. simpl.
  by rewrite splitOn_app, fmap_app.
Qed.

Lemma elementsOf_name n : isEntryName n = true → elementsOf n = [n].
Proof.
  intros (_ & _ & _ & Hsep)%isEntryName_spec. unfold elementsOf.
  rewrite splitOn_field by done. simpl. by rewrite String.string_of_list_ascii_of_string.
Qed.

Lemma rootedPath_name n : isEntryName n = true → rootedPath n = false.
Proof.
  intros (_ & _ & _ & Hsep)%isEntryName_spec. unfold rootedPath.
  destruct (String.list_ascii_of_string n) as [|c l]; [done|].
  simpl in Hsep. apply andb_true_iff in Hsep as [Hc _]. apply negb_true_iff in Hc.
  destruct c as [[] [] [] [] [] [] [] []]; done.
Qed.

Lemma keptOK_name rooted kept n :
  isEntryName n = true → keptOK rooted kept = true → keptOK rooted (n :: kept) = true.
Proof.
  intros Hn Hk. simpl. rewrite Hn, Hk.
  apply isEntryName_spec in Hn as (_ & _ & Hdd%String.eqb_neq & _). by rewrite Hdd.
Qed.

(** [Join] adds the name to the elements that [Clean] keeps of the
    directory. *)
Lemma Join_render p n :
  isEntryName n = true → Join p n = render (rootedPath p) (rev (n :: keptOf p)).
Proof.
  intros Hn. pose proof Hn as (Hne%String.eqb_neq & _)%isEntryName_spec.
  unfold Join. simpl. destruct (String.eqb_spec p "") as [->|Hp].
  - rewrite Hne, Clean_render. unfold keptOf.
    by rewrite (rootedPath_name n Hn), (elementsOf_name n Hn), keptAfter_name.
  - rewrite Clean_render. unfold keptOf.
    rewrite (rootedPath_append p) by done.
    by rewrite elementsOf_append, (elementsOf_name n Hn), keptAfter_app, keptAfter_name.
Qed.

Lemma keptOf_Join p n :
  isEntryName n = true →
  rootedPath (Join p n) = rootedPath p ∧ keptOf (Join p n) = n :: keptOf p.
Proof.
  intros Hn. rewrite (Join_render p n Hn). apply keptOf_render.
  apply keptOK_name; [done | apply keptOK_keptOf].
Qed.

Lemma keptOf_foldl_Join p names :
  Forall (λ name, isEntryName name = true) names →
  rootedPath (foldl Join p names) = rootedPath p ∧
  keptOf (foldl Join p names) = rev names ++ keptOf p.
Proof.
  intros Hnames. revert p. induction Hnames as [|n names Hn Hnames IH]; intros p; [done|].
  change (foldl Join p (n :: names)) with (foldl Join (Join p n) names).
  destruct (IH (Join p n)) as [Hr Hk]. destruct (keptOf_Join p n Hn) as [Hr' Hk'].
  rewrite Hr, Hk, Hr', Hk'. simpl rev. by rewrite <- app_assoc.
Qed.

(** A directory below another is another directory. *)
Lemma foldl_Join_ne p names :
  names ≠ [] → Forall (λ name, isEntryName name = true) names → foldl Join p names ≠ p.
Proof.
  intros Hne Hnames Heq. destruct (keptOf_foldl_Join p names Hnames) as [_ Hk].
  rewrite Heq in Hk. apply (f_equal length) in Hk.
  rewrite length_app, length_rev in Hk. destruct names; [done|]. simpl in Hk. lia.
Qed.

Lemma Clean_Join p n : isEntryName n = true → Clean (Join p n) = Join p n.
Proof.
  intros Hn. rewrite (Join_render p n Hn). apply Clean_of_render.
  apply keptOK_name; [done | apply keptOK_keptOf].
Qed.

Lemma Clean_foldl_Join p names :
  names ≠ [] → Forall (λ name, isEntryName name = true) names →
  Clean (foldl Join p names) = foldl Join p names.
Proof.
  intros Hne Hnames. destruct (exists_last Hne) as (names' & n & ->).
  rewrite foldl_app. change (foldl Join ?dir [n]) with (Join dir n). apply Clean_Join.
  apply Forall_app in Hnames as [_ Hn]. by apply (Forall_inv Hn).
Qed.

Lemma dropWhile_fields x f :
  noSeparator f = true →
  rev (dropWhile (λ c, negb (Ascii.eqb c "/")) (rev (x ++ "/"%char :: f))) = x ++ ["/"%char].
Proof.
  intros Hsep. rewrite rev_app_distr. simpl. rewrite <- app_assoc. simpl.
  assert (∀ g rest, forallb (λ c, negb (Ascii.eqb c "/")) g = true →
            dropWhile (λ c, negb (Ascii.eqb c "/")) (g ++ "/"%char :: rest) = "/"%char :: rest)
    as Hdrop.
  { induction g as [|c g IH]; intros rest; simpl; [done|].
    intros [-> Hg]%andb_true_iff. by apply IH. }
  rewrite Hdrop.
  - simpl. by rewrite rev_involutive.
  - unfold noSeparator in Hsep. rewrite forallb_forall in Hsep |- *.
    intros c Hc. apply Hsep. by apply in_rev.
Qed.

Lemma dropWhile_field f :
  noSeparator f = true → rev (dropWhile (λ c, negb (Ascii.eqb c "/")) (rev f)) = [].
Proof.
  intros Hsep.
  assert (∀ g, forallb (λ c, negb (Ascii.eqb c "/")) g = true →
            dropWhile (λ c, negb (Ascii.eqb c "/")) g = []) as Hdrop.
  { induction g as [|c g IH]; simpl; [done|]. intros [-> Hg]%andb_true_iff. by apply IH. }
  rewrite Hdrop; [done|].
  unfold noSeparator in Hsep. rewrite forallb_forall in Hsep |- *.
  intros c Hc. apply Hsep. by apply in_rev.
Qed.

Lemma joined_snoc fs f :
  joined (fs ++ [f]) = match fs with [] => f | _ => joined fs ++ "/"%char :: f end.
Proof.
  induction fs as [|g fs IH]; [done|].
  destruct fs as [|h fs]; [done|].
  change (joined ((g :: h :: fs) ++ [f])) with (g ++ "/"%char :: joined ((h :: fs) ++ [f])).
  rewrite IH. change (joined (g :: h :: fs)) with (g ++ "/"%char :: joined (h :: fs)).
  by rewrite <- app_assoc.
Qed.

Lemma Clean_separator q : q ≠ "" → Clean (q +:+ "/") = Clean q.
Proof.
  intros Hq. rewrite !Clean_render. unfold keptOf.
  rewrite (rootedPath_append q) by done.
  change (q +:+ "/") with (q +:+ "/" +:+ "").
  rewrite elementsOf_append, keptAfter_app. done.
Qed.

Lemma render_ne rooted ks : render rooted ks ≠ "".
Proof.
  unfold render. destruct rooted; [done|].
  by destruct (String.eqb_spec (String.concat "/" ks) "").
Qed.

(** The directory of the path that [Join] makes of a directory and a name
    is the directory, cleaned. *)
Lemma Dir_Join p n : isEntryName n = true → Dir (Join p n) = Clean p.
Proof.
  intros Hn. rewrite (Join_render p n Hn), (Clean_render p).
  pose proof (keptOK_keptOf p) as Hk.
  pose proof (keptOK_name _ _ n Hn Hk) as Hnk.
  set (r := rootedPath p) in *. set (K := keptOf p) in *.
  assert (Forall (λ f, f ≠ [] ∧ noSeparator f = true)
            (String.list_ascii_of_string <$> rev (n :: K))) as Hfs.
  { rewrite rev_reverse, fmap_reverse. apply Forall_reverse. by eapply keptOK_fields. }
  assert (Forall (λ f, f ≠ [] ∧ noSeparator f = true)
            (String.list_ascii_of_string <$> rev K)) as Hfs'.
  { rewrite rev_reverse, fmap_reverse. apply Forall_reverse. by eapply keptOK_fields. }
  pose proof Hn as (_ & _ & _ & Hsep)%isEntryName_spec.
  change (Dir ?x) with (Clean (dirPart x)). unfold dirPart.
  rewrite (chars_render _ _ Hfs).
  change (rev (n :: K)) with (rev K ++ [n]).
  assert (match rev K ++ [n] with
          | [] => ["."%char]
          | _ :: _ => joined (String.list_ascii_of_string <$> rev K ++ [n])
          end = joined (String.list_ascii_of_string <$> rev K ++ [n])) as ->
    by (by destruct (rev K)).
  rewrite fmap_app.
  change (String.list_ascii_of_string <$> [n]) with [String.list_ascii_of_string n].
  rewrite joined_snoc.
  destruct (rev K) as [|k ks] eqn:Hrev.
  - change (String.list_ascii_of_string <$> []) with (@nil (list ascii)).
    cbv beta iota. destruct r.
    + change ("/"%char :: ?f) with ([] ++ "/"%char :: f).
      by rewrite (dropWhile_fields [] _ Hsep).
    + by rewrite (dropWhile_field _ Hsep).
  - rewrite fmap_cons. cbv beta iota. rewrite <- fmap_cons. rewrite <- Hrev in *.
    assert (Clean (render r (rev K) +:+ "/") = render r (rev K)) as Hclean.
    { rewrite Clean_separator by apply render_ne. by apply Clean_of_render. }
    rewrite <- Hclean at 1. f_equal. apply chars_inj.
    rewrite String.list_ascii_of_string_of_list_ascii, chars_append.
    rewrite (chars_render _ _ Hfs').
    change (String.list_ascii_of_string "/") with ["/"%char].
    rewrite Hrev. rewrite <- Hrev.
    destruct r.
    + change ("/"%char :: ?a ++ ?b) with (("/"%char :: a) ++ b).
      by rewrite (dropWhile_fields _ _ Hsep).
    + by rewrite (dropWhile_fields _ _ Hsep).
Qed.

(** C9: the guard of the second case compares the directory of the path,
    which [filepath.Dir] cleans, with the root as it was given.  A file of
    the top-level directory is therefore passed over exactly when the root
    is given in its clean form and the file has no extension, or the
    extension .html or .ico, or the name of the index or of the aliases
    file; a file of a directory below is never passed over.  A file that
    is passed over has no finding whatever the database, and every other
    file whose extension is not .json is the format error with its path,
    which is the result of the pass when the visits before it have no
    finding.  When the root is not given in its clean form, as in "db/",
    no file of the top-level directory is passed over, and its pages and
    its files without extension are format errors. *)
Theorem only_top_level_files_are_passed_over d dbPath v :
  visitErr v = None → visitIsDir v = false →
  (topLevel dbPath v →
     (passedOver dbPath v ↔
        Clean dbPath = dbPath ∧
        (Ext (visitName v) = "" ∨ Ext (visitName v) = ".html" ∨
         Ext (visitName v) = ".ico" ∨
         visitName v = indexFile ∨ visitName v = aliasesFile))) ∧
  (belowTopLevel dbPath v → ¬ passedOver dbPath v) ∧
  (passedOver dbPath v → ∀ d', visit d' dbPath v = None) ∧
  (¬ passedOver dbPath v → Ext (visitName v) ≠ ".json" →
     visit d dbPath v = Some (ErrNonJSON (visitPath v)) ∧
     (∀ before after, (∀ u, u ∈ before → visit d dbPath u = None) →
        checkNoUnexpectedFiles d dbPath (before ++ v :: after) =
          Some (ErrNonJSON (visitPath v)))) ∧
  (topLevel dbPath v → Clean dbPath ≠ dbPath →
     ¬ passedOver dbPath v ∧
     (Ext (visitName v) ≠ ".json" → visit d dbPath v = Some (ErrNonJSON (visitPath v)))).
Proof.
  intros Herr Hdir.
  assert (topLevel dbPath v → Dir (visitPath v) = Clean dbPath) as Htop.
  { intros [Hn ->]. by apply Dir_Join. }
  split_and!.
  - intros Ht. unfold passedOver. by rewrite (Htop Ht).
  - intros [Hn (names & Hne & Hnames & Hpath)] [Hd _].
    rewrite Hpath, Dir_Join, Clean_foldl_Join in Hd by done.
    by apply (foldl_Join_ne dbPath names).
  - intros Hp d'. by apply visit_passedOver.
  - intros Hp Hext.
    assert (visit d dbPath v = Some (ErrNonJSON (visitPath v))) as Hv
      by (by apply visit_not_json).
    split; [done|]. intros before after Hbefore. by apply forRange_first.
  - intros Ht Hclean.
    assert (¬ passedOver dbPath v) as Hp.
    { intros [Hd _]. by rewrite (Htop Ht) in Hd. }
    split; [done|]. intros Hext. by apply visit_not_json.
Qed.

Lemma only_top_level_files_are_passed_over_example :
  visit d1 "db/" (file "db/index.html" "index.html") = Some (ErrNonJSON "db/index.html") ∧
  visit d1 "db/" (file "db/LICENSE" "LICENSE") = Some (ErrNonJSON "db/LICENSE") ∧
  visit d1 "db" (file "db/index.html" "index.html") = None ∧
  visit d1 "db" (file "db/LICENSE" "LICENSE") = None ∧
  visit d1 "db" (file "db/notes.txt" "notes.txt") = Some (ErrNonJSON "db/notes.txt") ∧
  visit d1 "db" (file "db/sub/index.html" "index.html") = Some (ErrNonJSON "db/sub/index.html") ∧
  visit d1 "db" (file "db/sub/LICENSE" "LICENSE") = Some (ErrNonJSON "db/sub/LICENSE") ∧
  checkNoUnexpectedFiles d1 "db" walk1 = None ∧
  checkNoUnexpectedFiles d1 "db/" walkSlash = Some (ErrUnexpectedModule "aliases").
Proof.
  assert (∀ dbPath path name,
            isEntryName name = true → path = Join dbPath name →
            topLevel dbPath (file path name)) as Htop by (by intros ??? Hn ->).
  split_and!.
  - destruct (only_top_level_files_are_passed_over d1 "db/" (file "db/index.html" "index.html"))
      as (_ & _ & _ & _ & Hbug); [done..|].
    apply Hbug; [by apply Htop | vm_compute; discriminate | vm_compute; discriminate].
  - destruct (only_top_level_files_are_passed_over d1 "db/" (file "db/LICENSE" "LICENSE"))
      as (_ & _ & _ & _ & Hbug); [done..|].
    apply Hbug; [by apply Htop | vm_compute; discriminate | vm_compute; discriminate].
  - destruct (only_top_level_files_are_passed_over d1 "db" (file "db/index.html" "index.html"))
      as (Hiff & _ & Hpass & _); [done..|].
    apply Hpass, Hiff; [by apply Htop|]. split; [vm_compute; reflexivity|].
    right. left. vm_compute; reflexivity.
  - destruct (only_top_level_files_are_passed_over d1 "db" (file "db/LICENSE" "LICENSE"))
      as (Hiff & _ & Hpass & _); [done..|].
    apply Hpass, Hiff; [by apply Htop|]. split; [vm_compute; reflexivity|].
    left. vm_compute; reflexivity.
  - destruct (only_top_level_files_are_passed_over d1 "db" (file "db/notes.txt" "notes.txt"))
      as (Hiff & _ & _ & Hnot & _); [done..|].
    apply Hnot; [|vm_compute; discriminate].
    intros (_ & Hweb)%Hiff; [|by apply Htop].
    destruct Hweb as [H|[H|[H|[H|H]]]]; vm_compute in H; discriminate H.
  - destruct (only_top_level_files_are_passed_over d1 "db" (file "db/sub/index.html" "index.html"))
      as (_ & Hbelow & _ & Hnot & _); [done..|].
    apply Hnot; [|vm_compute; discriminate].
    apply Hbelow. split; [done|]. exists ["sub"]. split_and!; [done | by repeat constructor | done].
  - destruct (only_top_level_files_are_passed_over d1 "db" (file "db/sub/LICENSE" "LICENSE"))
      as (_ & Hbelow & _ & Hnot & _); [done..|].
    apply Hnot; [|vm_compute; discriminate].
    apply Hbelow. split; [done|]. exists ["sub"]. split_and!; [done | by repeat constructor | done].
  - vm_compute; reflexivity.
  - vm_compute; reflexivity.
Defined.


(** ** The version ordering *)

Section StrictCompareFacts.
Context {A} (cmp : A → A → comparison) `{!StrictCompare cmp}.

Lemma compare_refl x : cmp x x = Eq.
Proof. by apply (compare_eq (cmp := cmp)). Qed.

Lemma compare_Gt x y : cmp x y = Gt ↔ cmp y x = Lt.
Proof. rewrite (compare_antisym (cmp := cmp) x y). destruct (cmp x y); simpl; split; done. Qed.

(** "Not below" is transitive. *)
Lemma compare_not_Lt_trans x y z : cmp x y ≠ Lt → cmp y z ≠ Lt → cmp x z ≠ Lt.
Proof.
  intros Hxy Hyz Hxz.
  destruct (cmp x y) eqn:Exy; [|done|].
  - apply (compare_eq (cmp := cmp)) in Exy as ->. done.
  - destruct (cmp y z) eqn:Eyz; [|done|].
    + apply (compare_eq (cmp := cmp)) in Eyz as ->. congruence.
    + apply compare_Gt in Exy, Eyz.
      pose proof (compare_trans (cmp := cmp) _ _ _ Eyz Exy) as Hzx.
      apply compare_Gt in Hzx. congruence.
Qed.

End StrictCompareFacts.

Lemma lexc_Eq c1 c2 : lexc c1 c2 = Eq ↔ c1 = Eq ∧ c2 = Eq.
Proof. destruct c1; simpl; split; (done || by intros [? ?]). Qed.

Lemma lexc_trans {A} (ca : A → A → comparison) `{!StrictCompare ca}
    a1 a2 a3 (r12 r23 r13 : comparison) :
  (r12 = Lt → r23 = Lt → r13 = Lt) →
  lexc (ca a1 a2) r12 = Lt → lexc (ca a2 a3) r23 = Lt → lexc (ca a1 a3) r13 = Lt.
Proof.
  intros Hr.
  destruct (ca a1 a2) eqn:E12; simpl; [| |done].
  - apply (compare_eq (cmp := ca)) in E12 as ->.
    destruct (ca a2 a3) eqn:E23; simpl; [done..].
  - intros _. destruct (ca a2 a3) eqn:E23; simpl; [| |done].
    + apply (compare_eq (cmp := ca)) in E23 as <-. by rewrite E12.
    + intros _. by rewrite (compare_trans (cmp := ca) _ _ _ E12 E23).
Qed.

(** The lexicographic combination of two strict comparisons. *)
Lemma lexc_strict {A B} (ca : A → A → comparison) (cb : B → B → comparison)
    `{!StrictCompare ca} `{!StrictCompare cb} :
  StrictCompare (λ x y : A * B, lexc (ca x.1 y.1) (cb x.2 y.2)).
Proof.
  split.
  - intros [a b] [a' b']. simpl.
    rewrite lexc_Eq, (compare_eq (cmp := ca)), (compare_eq (cmp := cb)). split.
    + by intros [-> ->].
    + by intros [= -> ->].
  - intros [a b] [a' b']. simpl.
    rewrite (compare_antisym (cmp := ca) a a'), (compare_antisym (cmp := cb) b b').
    by destruct (ca a a').
  - intros [a1 b1] [a2 b2] [a3 b3]. simpl.
    apply lexc_trans; [done|]. apply (compare_trans (cmp := cb)).
Qed.

#[global] Instance N_compare_strict : StrictCompare N.compare.
Proof.
  split.
  - apply N.compare_eq_iff.
  - intros x y. apply N.compare_antisym.
  - intros x y z. rewrite !N.compare_lt_iff. lia.
Qed.

Lemma ascii_compare_strict : StrictCompare Ascii.compare.
Proof.
  unfold Ascii.compare. split.
  - intros x y. rewrite N.compare_eq_iff. split; [|by intros ->].
    intros Heq. by rewrite <- (ascii_N_embedding x), <- (ascii_N_embedding y), Heq.
  - intros x y. apply N.compare_antisym.
  - intros x y z. rewrite !N.compare_lt_iff. lia.
Qed.

#[global] Instance String_compare_strict : StrictCompare String.compare.
Proof.
  pose proof ascii_compare_strict as Ha. split.
  - intros x y. split; [apply String.compare_eq_iff|].
    intros <-. induction x as [|c x IH]; simpl; [done|].
    by rewrite (compare_refl Ascii.compare).
  - intros x y. apply (String.compare_antisym y x).
  - intros x. induction x as [|a x IH]; intros [|b y] [|c z]; simpl; try done.
    destruct (Ascii.compare a b) eqn:Eab; [|clear IH|done].
    + apply (compare_eq (cmp := Ascii.compare)) in Eab as ->.
      destruct (Ascii.compare b c); [apply IH|done..].
    + intros _. destruct (Ascii.compare b c) eqn:Ebc; [| |done].
      * apply (compare_eq (cmp := Ascii.compare)) in Ebc as <-. by rewrite Eab.
      * by rewrite (compare_trans (cmp := Ascii.compare) _ _ _ Eab Ebc).
Qed.

#[global] Instance compareIdentifier_strict : StrictCompare compareIdentifier.
Proof.
  split.
  - intros [a|a] [b|b]; simpl; try (split; done).
    + rewrite (compare_eq (cmp := N.compare)). split; congruence.
    + rewrite (compare_eq (cmp := String.compare)). split; congruence.
  - intros [a|a] [b|b]; simpl; try done.
    + apply (compare_antisym (cmp := N.compare)).
    + apply (compare_antisym (cmp := String.compare)).
  - intros [a|a] [b|b] [c|c]; simpl; try done.
    + apply (compare_trans (cmp := N.compare)).
    + apply (compare_trans (cmp := String.compare)).
Qed.

#[global] Instance compareIdentifiers_strict : StrictCompare compareIdentifiers.
Proof.
  split.
  - intros x. induction x as [|a x IH]; intros [|b y]; simpl; try (split; done).
    rewrite lexc_Eq, IH, (compare_eq (cmp := compareIdentifier)). split.
    + by intros [-> ->].
    + by intros [= -> ->].
  - intros x. induction x as [|a x IH]; intros [|b y]; simpl; try done.
    rewrite IH, (compare_antisym (cmp := compareIdentifier) a b).
    by destruct (compareIdentifier a b).
  - intros x. induction x as [|a x IH]; intros [|b y] [|c z]; simpl; try done.
    apply lexc_trans; [apply _|]. apply IH.
Qed.

#[global] Instance comparePrerelease_strict : StrictCompare comparePrerelease.
Proof.
  split.
  - intros [|a x] [|b y]; simpl; try (split; done).
    apply (compare_eq (cmp := compareIdentifiers) (a :: x) (b :: y)).
  - intros [|a x] [|b y]; simpl; try done.
    apply (compare_antisym (cmp := compareIdentifiers) (a :: x) (b :: y)).
  - intros [|a x] [|b y] [|c z]; try done.
    apply (compare_trans (cmp := compareIdentifiers) (a :: x) (b :: y) (c :: z)).
Qed.

#[global] Instance compareParsed_strict : StrictCompare compareParsed.
Proof.
  pose proof (lexc_strict N.compare comparePrerelease) as H3.
  pose proof (lexc_strict N.compare _ (StrictCompare1 := H3)) as H2.
  pose proof (lexc_strict N.compare _ (StrictCompare1 := H2)) as H1.
  set (tuple := λ p : parsed, (major p, (minor p, (patch p, prerelease p)))).
  assert (∀ p q, tuple p = tuple q → p = q) as Hinj.
  { intros [] [] [= -> -> -> ->]. done. }
  split.
  - intros p q. split.
    + intros Hc. by apply Hinj, (compare_eq (StrictCompare := H1) (tuple p) (tuple q)).
    + intros ->. by apply (compare_eq (StrictCompare := H1) (tuple q) (tuple q)).
  - intros p q. apply (compare_antisym (StrictCompare := H1) (tuple p) (tuple q)).
  - intros p q r. apply (compare_trans (StrictCompare := H1) (tuple p) (tuple q) (tuple r)).
Qed.

#[global] Instance compareParses_strict : StrictCompare compareParses.
Proof.
  split.
  - intros [p|] [q|]; simpl; try (split; done).
    rewrite (compare_eq (cmp := compareParsed)). split; congruence.
  - intros [p|] [q|]; simpl; try done.
    apply (compare_antisym (cmp := compareParsed)).
  - intros [p|] [q|] [r|]; simpl; try done.
    apply (compare_trans (cmp := compareParsed)).
Qed.

Lemma Before_true v w : Before v w = true ↔ Compare (V v) (V w) = Lt.
Proof. unfold Before. apply bool_decide_eq_true. Qed.

Lemma Before_false v w : Before v w = false ↔ Compare (V v) (V w) ≠ Lt.
Proof. unfold Before. apply bool_decide_eq_false. Qed.

Lemma Before_irrefl v : Before v v = false.
Proof.
  apply Before_false. unfold Compare. by rewrite (compare_refl compareParses).
Qed.

Lemma Before_trans u v w : Before u v = true → Before v w = true → Before u w = true.
Proof. rewrite !Before_true. apply (compare_trans (cmp := compareParses)). Qed.

Lemma not_Before_trans u v w : Before u v = false → Before v w = false → Before u w = false.
Proof. rewrite !Before_false. apply (compare_not_Lt_trans compareParses). Qed.











(** ** The latest fixed version *)



(** ** The indexes that [New] builds *)

Lemma upsert_upserted entry l : upserted entry l (upsert entry l).
Proof.
  induction l as [|x l (Hin & Hsub & Hkeep)]; simpl.
  - split_and!; [by left | by intros x ->%list_elem_of_singleton; left | by intros x ?%elem_of_nil].
  - destruct (String.compare (ID entry) (ID x)) eqn:Hc.
    + apply (compare_eq (cmp := String.compare)) in Hc. split_and!.
      * by left.
      * intros y [->|Hy]%elem_of_cons; [by left | right; by right].
      * intros y [->|Hy]%elem_of_cons Hne; [congruence | by right].
    + split_and!.
      * by left.
      * intros y [->|Hy]%elem_of_cons; [by left | by right].
      * intros y Hy _. by right.
    + split_and!.
      * by right.
      * intros y [->|Hy]%elem_of_cons; [right; by left|].
        destruct (Hsub y Hy) as [->|?]; [by left | right; by right].
      * intros y [->|Hy]%elem_of_cons Hne; [by left | right; auto].
Qed.

Lemma upserted_trans entry l0 l1 l2 :
  upserted entry l0 l1 → upserted entry l1 l2 → upserted entry l0 l2.
Proof.
  intros (Hin1 & Hsub1 & Hkeep1) (Hin2 & Hsub2 & Hkeep2). split_and!.
  - done.
  - intros x [->|Hx]%Hsub2; [by left | auto].
  - intros x Hx Hne. auto.
Qed.

Lemma elem_of_insertID id ids g : g ∈ insertID id ids ↔ g = id ∨ g ∈ ids.
Proof.
  induction ids as [|x ids IH]; simpl.
  - rewrite list_elem_of_singleton. split; [by left | intros [?|?%elem_of_nil]; done].
  - destruct (String.compare id x) eqn:Hc.
    + apply (compare_eq (cmp := String.compare)) in Hc as ->.
      rewrite elem_of_cons. tauto.
    + rewrite !elem_of_cons. tauto.
    + rewrite !elem_of_cons, IH. tauto.
Qed.

Lemma foldl_addModule entry modules byModule module :
  let byModule' := foldl (addModule entry) byModule modules in
  (module ∉ modules → byModule' !! module = byModule !! module) ∧
  (module ∈ modules →
     ∃ l', byModule' !! module = Some l' ∧
       upserted entry (default [] (byModule !! module)) l').
Proof.
  revert byModule. induction modules as [|a rest IH]; intros byModule; simpl.
  - split; [done | by intros ?%elem_of_nil].
  - destruct (IH (addModule entry byModule a)) as [Hout Hin]. split.
    + intros [Hne Hrest]%not_elem_of_cons. rewrite Hout by done.
      unfold addModule. by rewrite lookup_insert_ne.
    + intros Hmod. destruct (decide (module ∈ rest)) as [Hrest|Hrest].
      * destruct (Hin Hrest) as (l' & Hl' & Hup). exists l'. split; [done|].
        unfold addModule in Hup. destruct (decide (a = module)) as [->|Hne].
        -- rewrite lookup_insert_eq in Hup. simpl in Hup.
           eapply upserted_trans; [apply upsert_upserted | done].
        -- by rewrite lookup_insert_ne in Hup.
      * apply elem_of_cons in Hmod as [->|]; [|done].
        rewrite Hout by done. unfold addModule. rewrite lookup_insert_eq.
        eexists. split; [done|]. apply upsert_upserted.
Qed.

Lemma foldl_addAlias id aliases byAlias alias :
  let byAlias' := foldl (addAlias id) byAlias aliases in
  (alias ∉ aliases → byAlias' !! alias = byAlias !! alias) ∧
  (alias ∈ aliases →
     ∃ ids', byAlias' !! alias = Some ids' ∧
       ∀ g, g ∈ ids' ↔ g = id ∨ g ∈ default [] (byAlias !! alias)).
Proof.
  revert byAlias. induction aliases as [|a rest IH]; intros byAlias; simpl.
  - split; [done | by intros ?%elem_of_nil].
  - destruct (IH (addAlias id byAlias a)) as [Hout Hin]. split.
    + intros [Hne Hrest]%not_elem_of_cons. rewrite Hout by done.
      unfold addAlias. by rewrite lookup_insert_ne.
    + intros Hal. destruct (decide (alias ∈ rest)) as [Hrest|Hrest].
      * destruct (Hin Hrest) as (ids' & Hids' & Hiff). exists ids'. split; [done|].
        intros g. rewrite Hiff. unfold addAlias.
        destruct (decide (a = alias)) as [->|Hne].
        -- rewrite lookup_insert_eq. simpl. rewrite elem_of_insertID. tauto.
        -- by rewrite lookup_insert_ne.
      * apply elem_of_cons in Hal as [->|]; [|done].
        rewrite Hout by done. unfold addAlias. rewrite lookup_insert_eq.
        eexists. split; [done|]. intros g. apply elem_of_insertID.
Qed.

Lemma built_empty : built [] emptyDatabase.
Proof.
  split; simpl.
  - intros id e. rewrite lookup_empty. split; [done | by intros [?%elem_of_nil _]].
  - intros module l. by rewrite lookup_empty.
  - by intros e module ?%elem_of_nil.
  - intros alias ids. by rewrite lookup_empty.
  - by intros e alias ?%elem_of_nil.
Qed.

Lemma built_ext es es' d :
  (∀ x, x ∈ es ↔ x ∈ es') → built es d → built es' d.
Proof.
  intros Hext [Hid Hmod Hmods Hal Hals]. split.
  - intros id e. by rewrite Hid, Hext.
  - intros module l Hl. destruct (Hmod module l Hl) as [Hne Hiff].
    split; [done|]. intros x. by rewrite Hiff, Hext.
  - intros e module He%Hext. by apply Hmods.
  - intros alias ids Hids g. rewrite (Hal alias ids Hids).
    split; intros (e & He & Hrest); exists e; (split; [by apply Hext | done]).
  - intros e alias He%Hext. by apply Hals.
Qed.

Lemma add_inr d entry d' :
  add d entry = inr d' →
  EntriesByID d !! ID entry = None ∧
  EntriesByID d' = <[ID entry := entry]> (EntriesByID d) ∧
  EntriesByModule d' = foldl (addModule entry) (EntriesByModule d) (modulesOf entry) ∧
  IDsByAlias d' = foldl (addAlias (ID entry)) (IDsByAlias d) (Aliases entry).
Proof.
  unfold add. destruct (EntriesByID d !! ID entry); [done|]. by intros [= <-].
Qed.

Lemma add_built es d entry d' :
  built es d → add d entry = inr d' → built (entry :: es) d'.
Proof.
  intros [Hid Hmod Hmods Hal Hals] (Hfresh & Hid' & Hmod' & Hal')%add_inr.
  assert (∀ x, x ∈ es → ID x ≠ ID entry) as Hother.
  { intros x Hx Heq. assert (EntriesByID d !! ID entry = Some x) as Hs by (by apply Hid).
    congruence. }
  split.
  - intros id e. rewrite Hid', elem_of_cons.
    destruct (decide (ID entry = id)) as [<-|Hne].
    + rewrite lookup_insert_eq. split.
      * intros [= <-]. split; [by left | done].
      * intros [[->|He] Heq]; [done|]. by apply Hother in He.
    + rewrite lookup_insert_ne, Hid by done. split.
      * intros [He <-]. split; [by right | done].
      * intros [[->|He] Heq]; done.
  - intros module l. rewrite Hmod'.
    destruct (foldl_addModule entry (modulesOf entry) (EntriesByModule d) module)
      as [Hout Hin].
    destruct (decide (module ∈ modulesOf entry)) as [Hm|Hm].
    + destruct (Hin Hm) as (l' & -> & Hentry & Hsub & Hkeep). intros [= <-]. split.
      * intros ->. by apply elem_of_nil in Hentry.
      * intros x. rewrite elem_of_cons. split.
        -- intros [->|Hx]%Hsub; [split; [by left | done]|].
           destruct (EntriesByModule d !! module) as [l0|] eqn:Hl0;
             [|by apply elem_of_nil in Hx].
           simpl in Hx. destruct (Hmod module l0 Hl0) as [_ Hiff].
           apply Hiff in Hx as [Hx Hxm]. split; [by right | done].
        -- intros [[->|Hx] Hxm]; [done|].
           destruct (Hmods x module Hx Hxm) as [l0 Hl0].
           apply Hkeep; [|by apply Hother]. rewrite Hl0. simpl.
           by apply (Hmod module l0 Hl0).
    + rewrite Hout by done. intros Hl. destruct (Hmod module l Hl) as [Hne Hiff].
      split; [done|]. intros x. rewrite Hiff, elem_of_cons. split.
      * intros [Hx Hxm]. split; [by right | done].
      * intros [[->|Hx] Hxm]; done.
  - intros e module [->|He]%elem_of_cons Hm; rewrite Hmod';
      destruct (foldl_addModule entry (modulesOf entry) (EntriesByModule d) module)
        as [Hout Hin].
    + destruct (Hin Hm) as (l' & -> & _). done.
    + destruct (decide (module ∈ modulesOf entry)) as [Hm'|Hm'].
      * destruct (Hin Hm') as (l' & -> & _). done.
      * rewrite Hout by done. by eapply Hmods.
  - intros alias ids. rewrite Hal'.
    destruct (foldl_addAlias (ID entry) (Aliases entry) (IDsByAlias d) alias)
      as [Hout Hin].
    destruct (decide (alias ∈ Aliases entry)) as [Ha|Ha].
    + destruct (Hin Ha) as (ids' & -> & Hiff). intros [= <-] g. rewrite Hiff. split.
      * intros [->|Hg].
        -- exists entry. split_and!; [by left | done | done].
        -- destruct (IDsByAlias d !! alias) as [ids0|] eqn:Hids0;
             [|by apply elem_of_nil in Hg].
           simpl in Hg. apply (Hal alias ids0 Hids0) in Hg as (e & He & Hid0 & Hea).
           exists e. split_and!; [by right | done | done].
      * intros (e & [->|He]%elem_of_cons & <- & Hea); [by left|]. right.
        destruct (Hals e alias He Hea) as [ids0 Hids0]. rewrite Hids0. simpl.
        apply (Hal alias ids0 Hids0). eauto.
    + rewrite Hout by done. intros Hids g. rewrite (Hal alias ids Hids). split.
      * intros (e & He & Hrest). exists e. split; [by right | done].
      * intros (e & [->|He]%elem_of_cons & Hg & Hea); [done|]. eauto.
  - intros e alias [->|He]%elem_of_cons Ha; rewrite Hal';
      destruct (foldl_addAlias (ID entry) (Aliases entry) (IDsByAlias d) alias)
        as [Hout Hin].
    + destruct (Hin Ha) as (ids' & -> & _). done.
    + destruct (decide (alias ∈ Aliases entry)) as [Ha'|Ha'].
      * destruct (Hin Ha') as (ids' & -> & _). done.
      * rewrite Hout by done. by eapply Hals.
Qed.

Lemma add_fresh es d entry d' :
  built es d → add d entry = inr d' → ∀ y, y ∈ es → ID y ≠ ID entry.
Proof.
  intros Hb (Hfresh & _)%add_inr y Hy Heq.
  assert (EntriesByID d !! ID entry = Some y) as Hs by (by apply (built_by_ID _ _ Hb)).
  congruence.
Qed.

(** When [addAll] succeeds, the entries have different IDs, none of them
    in the indexes before, and the indexes hold them afterwards. *)
Lemma addAll_inr es d entries d' :
  built es d → addAll d entries = inr d' →
  NoDup (ID <$> entries) ∧
  (∀ x y, x ∈ entries → y ∈ es → ID y ≠ ID x) ∧
  built (entries ++ es) d'.
Proof.
  revert es d. induction entries as [|e rest IH]; intros es d Hb; simpl.
  - intros [= <-]. split_and!; [constructor | by intros x y ?%elem_of_nil | done].
  - destruct (add d e) as [err|d1] eqn:Hadd; [done|]. intros Hall.
    pose proof (add_built es d e d1 Hb Hadd) as Hb1.
    pose proof (add_fresh es d e d1 Hb Hadd) as Hfresh.
    destruct (IH (e :: es) d1 Hb1 Hall) as (Hnd & Hnew & Hb').
    split_and!.
    + constructor; [|done]. intros (x & Hx & Hin)%list_elem_of_fmap.
      apply (Hnew x e Hin); [by left | done].
    + intros x y [->|Hx]%elem_of_cons Hy; [by apply Hfresh|].
      apply (Hnew x y Hx). by right.
    + eapply built_ext; [|done]. intros x.
      rewrite !elem_of_app, !elem_of_cons, elem_of_app. tauto.
Qed.

(** [addAll] fails only with a duplicate ID: that of the first entry
    whose ID an earlier entry has, or the indexes had before. *)
Lemma addAll_inl es d entries err :
  built es d → addAll d entries = inl err →
  ∃ before e after, entries = before ++ e :: after ∧ err = ErrDuplicateID (ID e) ∧
    NoDup (ID <$> before) ∧
    (∀ b y, b ∈ before → y ∈ es → ID y ≠ ID b) ∧
    ∃ x, x ∈ before ++ es ∧ ID x = ID e.
Proof.
  revert es d. induction entries as [|e rest IH]; intros es d Hb; simpl; [done|].
  destruct (add d e) as [err'|d1] eqn:Hadd.
  - intros [= <-]. unfold add in Hadd.
    destruct (EntriesByID d !! ID e) as [x|] eqn:Hx; [|done].
    injection Hadd as <-. apply (built_by_ID _ _ Hb) in Hx as [Hx Hid].
    exists [], e, rest.
    split_and!; [done | done | constructor | by intros b y ?%elem_of_nil | by exists x].
  - intros Hall.
    pose proof (add_built es d e d1 Hb Hadd) as Hb1.
    pose proof (add_fresh es d e d1 Hb Hadd) as Hfresh.
    destruct (IH (e :: es) d1 Hb1 Hall)
      as (before & e' & after & -> & -> & Hnd & Hnew & x & Hx & Hid).
    exists (e :: before), e', after. split_and!; [done | done | | |].
    + simpl. constructor; [|done].
      intros (y & Hy & Hin)%list_elem_of_fmap.
      apply (Hnew y e Hin); [by left | done].
    + intros b y [->|Hb']%elem_of_cons Hy; [by apply Hfresh|].
      apply (Hnew b y Hb'). by right.
    + exists x. split; [|done].
      rewrite elem_of_app, elem_of_cons in Hx. rewrite elem_of_app, elem_of_cons. tauto.
Qed.






(** ** New and the consistency check *)




(** C6: when two of the entries have the same ID, [New] returns the
    construction error for an ID that two entries have, and no database. *)
Theorem New_rejects_duplicate_IDs entries i j e1 e2 :
  i ≠ j → entries !! i = Some e1 → entries !! j = Some e2 → ID e1 = ID e2 →
  (∀ d, New entries ≠ inr d) ∧
  ∃ id, New entries = inl (ErrDuplicateID id) ∧
    ∃ i' j' x y, i' < j' ∧ entries !! i' = Some x ∧ entries !! j' = Some y ∧
      ID x = id ∧ ID y = id.
Proof.
  intros Hij Hi Hj Heq. unfold New.
  destruct (addAll emptyDatabase entries) as [err|d] eqn:Hall.
  - split; [done|].
    destruct (addAll_inl [] emptyDatabase entries err built_empty Hall)
      as (before & e & after & -> & -> & _ & _ & x & Hx & Hid).
    exists (ID e). split; [done|].
    rewrite app_nil_r in Hx. apply list_elem_of_lookup in Hx as [i' Hi'].
    exists i', (length before), x, e. split_and!; [|  | |done|done].
    + by apply lookup_lt_Some in Hi'.
    + by apply lookup_app_l_Some.
    + by rewrite list_lookup_middle.
  - exfalso. apply Hij.
    destruct (addAll_inr [] emptyDatabase entries d built_empty Hall) as (Hnd & _).
    apply (NoDup_lookup (ID <$> entries) i j (ID e1)); [done| |].
    + by rewrite list_lookup_fmap, Hi.
    + by rewrite list_lookup_fmap, Hj, Heq.
Qed.

Lemma New_rejects_duplicate_IDs_example :
  ∃ id, New [testOSV3; testOSV1; testOSV3] = inl (ErrDuplicateID id).
Proof.
  destruct (New_rejects_duplicate_IDs [testOSV3; testOSV1; testOSV3] 0 2 testOSV3 testOSV3)
    as [_ (id & Hnew & _)]; [done..|].
  by exists id.
Defined.

(** The expectation of [TestNew], whatever the order of the entries: the
    indexes, and for every module the tuples of ID, modified timestamp
    and latest fixed version in ascending order of ID. *)
Lemma TestNew :
  New [testOSV1; testOSV2; testOSV3] = inr valid ∧
  New [testOSV3; testOSV1; testOSV2] = inr valid ∧
  moduleVuln "example.com/module" <$> [testOSV2; testOSV3] =
    [("GO-2000-0002", jan2002, "1.2.0"); ("GO-2000-0003", jan2003, "1.1.0")] ∧
  moduleVuln "stdlib" <$> [testOSV1] = [("GO-1999-0001", jan2000, "1.2.2")].
Proof. split_and!; vm_compute; reflexivity. Qed.

(** ** The file inventory on examples *)


(** * Further properties of the validator *)

(** ** Orders of iteration and the meaning of the errors *)

Lemma forRange_Some {A} (body : A → option Error) l e :
  forRange body l = Some e → ∃ x, x ∈ l ∧ body x = Some e.
Proof.
  induction l as [|x l IH]; simpl; [done|].
  destruct (body x) as [e'|] eqn:Hx; simpl.
  - intros [= ->]. exists x. split; [left | done].
  - intros (y & Hy & Hby)%IH. exists y. split; [by right | done].
Qed.

Lemma indexChecked_dom d : indexChecked d → dom (Index d) = dom (EntriesByModule d).
Proof.
  intros [Hsz Hidx]. apply set_subseteq_size_eq.
  - intros module [modified Hm]%elem_of_dom.
    destruct (Hidx module modified Hm) as (entries & He & _).
    apply elem_of_dom. by eexists.
  - rewrite !size_dom. by rewrite Hsz.
Qed.

(** The loop over the index, through in some order. *)
Lemma indexChecked_intro d l :
  l ≡ₚ map_to_list (Index d) → checkLengths d = None →
  forRange (λ kv, checkIndexedModule d kv.1 kv.2) l = None → indexChecked d.
Proof.
  intros Hp Hl%checkLengths_None Hall. split; [done|].
  intros module modified Hm. apply checkIndexedModule_None.
  rewrite forRange_None in Hall. apply (Hall (module, modified)).
  rewrite Hp. by apply elem_of_map_to_list.
Qed.

(** The loop over the entries, through in some order. *)
Lemma byIDChecked_intro d l :
  l ≡ₚ map_to_list (EntriesByID d) →
  forRange (λ kv, checkEntryByID d kv.1 kv.2) l = None → byIDChecked d.
Proof.
  intros Hp Hall. rewrite forRange_None in Hall.
  assert (∀ id entry, EntriesByID d !! id = Some entry → checkEntryByID d id entry = None)
    as Hby.
  { intros id entry He. apply (Hall (id, entry)). rewrite Hp. by apply elem_of_map_to_list. }
  split.
  - intros id entry affected He Ha. apply (checkAffected_None d id affected).
    by apply (proj1 (checkEntryByID_None d id entry) (Hby id entry He)).
  - intros id entry alias He Ha. apply (checkAlias_None d id entry alias).
    by apply (proj1 (checkEntryByID_None d id entry) (Hby id entry He)).
Qed.

(** Once the index is checked, an entry whose affected packages are all
    found under its key has that key as its ID, if it has an affected
    package at all. *)
Lemma indexChecked_key d id entry :
  indexChecked d → EntriesByID d !! id = Some entry →
  forRange (checkAffected d id) (AffectedList entry) = None →
  AffectedList entry ≠ [] → ID entry = id.
Proof.
  intros Hidx He Haff Hne. pose proof (indexChecked_dom d Hidx) as Hdom.
  destruct (AffectedList entry) as [|affected rest]; [done|].
  rewrite forRange_None in Haff.
  destruct (proj1 (checkAffected_None d id affected)) as (entries & Hm & g & Hg & Hgid).
  { apply Haff. left. }
  assert (is_Some (Index d !! Name (AffectedPackage affected))) as [modified Hi].
  { apply elem_of_dom. rewrite Hdom. apply elem_of_dom. by eexists. }
  destruct Hidx as [_ Hidx].
  destruct (Hidx _ modified Hi) as (entries' & Hm' & _ & Hall & _).
  rewrite Hm in Hm'. injection Hm' as <-.
  pose proof (Hall g Hg) as Hby. rewrite Hgid, He in Hby. by injection Hby as ->.
Qed.

Lemma checkIndexedModule_Some d module modified err :
  sizesAgree d → Index d !! module = Some modified →
  checkIndexedModule d module modified = Some err → explains d err.
Proof.
  intros Hsz Hm. unfold checkIndexedModule.
  destruct (EntriesByModule d !! module) as [[|e l]|] eqn:He.
  - intros [= <-]. simpl. split_and!; [done | by eexists | by right].
  - destruct (checkModuleEntries d module (e :: l) zeroTime) as [err'|w] eqn:Hc.
    + intros [= <-].
      apply checkModuleEntries_inl in Hc
        as (x & Hx & [[Hnone ->]|(x' & Hsome & Hdiff & ->)]); simpl.
      * split_and!; [done | by eexists |]. by exists (e :: l), x.
      * split; [done|]. exists module, (e :: l), x, x'. split_and!; [by eexists | done..].
    + apply checkModuleEntries_inr in Hc as [Hall ->].
      case_bool_decide as Hne; [|done]. intros [= <-]. simpl.
      split_and!; [done | done |]. by exists (e :: l).
  - intros [= <-]. simpl. split_and!; [done | by eexists | by left].
Qed.

Lemma foundEntry_false id entries :
  foundEntry id entries = false ↔ ∀ g, g ∈ entries → ID g ≠ id.
Proof.
  rewrite <- not_true_iff_false, foundEntry_true. split.
  - intros Hn g Hg Hid. apply Hn. eauto.
  - intros Hall (g & Hg & Hid). by apply (Hall g).
Qed.

Lemma foundID_false id gotEntries : foundID id gotEntries = false ↔ id ∉ gotEntries.
Proof. by rewrite <- not_true_iff_false, foundID_true. Qed.

Lemma checkEntryByID_Some d id entry err :
  indexChecked d → EntriesByID d !! id = Some entry →
  checkEntryByID d id entry = Some err → explains d err.
Proof.
  intros Hidx Hid. unfold checkEntryByID.
  destruct (forRange (checkAffected d id) (AffectedList entry)) as [err'|] eqn:Haff; simpl.
  - intros [= <-]. apply forRange_Some in Haff as (affected & Hin & Hc).
    unfold checkAffected in Hc.
    destruct (EntriesByModule d !! Name (AffectedPackage affected)) as [[|e l]|] eqn:Hm.
    + injection Hc as <-. simpl. split; [done|].
      exists entry, affected. split_and!; [done..|by right].
    + destruct (foundEntry id (e :: l)) eqn:Hf; [done|]. injection Hc as <-. simpl.
      split; [done|]. exists entry, affected, (e :: l). split_and!; [done..|].
      by apply foundEntry_false.
    + injection Hc as <-. simpl. split; [done|].
      exists entry, affected. split_and!; [done..|by left].
  - pose proof (indexChecked_key d id entry Hidx Hid Haff) as Hkey.
    intros (alias & Hin & Hc)%forRange_Some. unfold checkAlias in Hc.
    destruct (IDsByAlias d !! alias) as [[|g l]|] eqn:Hm.
    + injection Hc as <-. simpl. split; [done|].
      exists entry. split_and!; [done | done | by right | done].
    + destruct (foundID id (g :: l)) eqn:Hf; [done|]. injection Hc as <-. simpl.
      split; [done|]. exists id, entry, (g :: l).
      split_and!; [done | done | done | done | done | by apply foundID_false | done].
    + injection Hc as <-. simpl. split; [done|].
      exists entry. split_and!; [done | done | by left | done].
Qed.

Lemma checkAliasedID_Some d alias goIDs goID err :
  indexChecked d → byIDChecked d →
  IDsByAlias d !! alias = Some goIDs → goID ∈ goIDs →
  checkAliasedID d alias goID = Some err → explains d err.
Proof.
  intros Hidx Hby Hal Hin. unfold checkAliasedID, Contains.
  destruct (EntriesByID d !! goID) as [entry|] eqn:He.
  - case_bool_decide as Ha; [done|]. intros [= <-]. simpl.
    split_and!; [done | done |]. by exists goIDs, entry.
  - intros [= <-]. simpl. split_and!; [done | done |]. by exists goIDs.
Qed.

(** In whatever order the maps are ranged over, the check gives the same
    verdict: it returns nil in one order exactly when it does in every
    other, and in the order of [checkInternalConsistency]. *)
Theorem verdict_independent_of_order d o :
  rangesOver d o →
  (checkInternalConsistencyIn o d = None ↔ checkInternalConsistency d = None) ∧
  (∀ o', rangesOver d o' →
     checkInternalConsistencyIn o d = None ↔ checkInternalConsistencyIn o' d = None) ∧
  checkInternalConsistencyIn (mapOrder d) d = checkInternalConsistency d.
Proof.
  intros Ho. split_and!.
  - by rewrite checkInternalConsistencyIn_None, checkInternalConsistency_None.
  - intros o' Ho'. by rewrite !checkInternalConsistencyIn_None.
  - reflexivity.
Qed.

Lemma reversed_rangesOver d :
  rangesOver d {| indexOrder := reverse (map_to_list (Index d));
                  byIDOrder := reverse (map_to_list (EntriesByID d));
                  byAliasOrder := reverse (map_to_list (IDsByAlias d)) |}.
Proof. split_and!; simpl; apply reverse_Permutation. Qed.

Lemma verdict_independent_of_order_valid :
  checkInternalConsistencyIn
    {| indexOrder := reverse (map_to_list (Index valid));
       byIDOrder := reverse (map_to_list (EntriesByID valid));
       byAliasOrder := reverse (map_to_list (IDsByAlias valid)) |} valid = None.
Proof.
  destruct (verdict_independent_of_order valid _ (reversed_rangesOver valid))
    as [[_ Hback] _].
  apply Hback. vm_compute. reflexivity.
Defined.

(** An error of the check is true of the database, in whatever order the
    maps are ranged over.  The checks before the one that gives the error
    have passed; the module, key or alias of the finding is a key of the
    map that the loop ranges over; and the lookup that the error reports
    has the result that the error names: no list or an empty one, no
    entry, a list without the key.  For the two errors of a comparison the
    values that were compared are located.  The error for an ID that an
    alias does not list is found for the key and names the ID of the entry
    stored under it, which is the key whenever the entry has an affected
    package.  The check never returns an error of the file inventory. *)
Theorem errors_are_true d o err :
  rangesOver d o → checkInternalConsistencyIn o d = Some err → explains d err.
Proof.
  intros (Hi & He & Ha). unfold checkInternalConsistencyIn.
  destruct (checkLengths d) as [e0|] eqn:Hl; simpl.
  { intros [= <-]. unfold checkLengths in Hl. case_bool_decide; [|done].
    injection Hl as <-. simpl. done. }
  destruct (forRange _ (indexOrder o)) as [e1|] eqn:H1; simpl.
  { intros [= <-]. apply forRange_Some in H1 as ([m t] & Hin & Hc).
    rewrite Hi in Hin. apply elem_of_map_to_list in Hin.
    apply checkLengths_None in Hl. by eapply checkIndexedModule_Some. }
  pose proof (indexChecked_intro d _ Hi Hl H1) as Hidx.
  destruct (forRange _ (byIDOrder o)) as [e2|] eqn:H2; simpl.
  { intros [= <-]. apply forRange_Some in H2 as ([id e] & Hin & Hc).
    rewrite He in Hin. apply elem_of_map_to_list in Hin.
    by eapply checkEntryByID_Some. }
  pose proof (byIDChecked_intro d _ He H2) as Hby.
  intros ([alias ids] & Hin & (g & Hg & Hc)%forRange_Some)%forRange_Some.
  rewrite Ha in Hin. apply elem_of_map_to_list in Hin.
  by eapply checkAliasedID_Some.
Qed.

Lemma errors_are_true_ancient :
  explains (ancient (-1)%Z) (ErrIncorrectModified "example.com/ancient" zeroTime (-1)%Z) ∧
  explains mislabelled (ErrNotListedAsAlias "GO-1999-0001" "CVE-1999-1111") ∧
  ["GO-1999-0001"] = default [] (IDsByAlias mislabelled !! "CVE-1999-1111") ∧
  EntriesByID mislabelled !! "GO-1999-0001" = None.
Proof.
  split_and!.
  - apply (errors_are_true _ (mapOrder (ancient (-1)%Z))).
    + split_and!; reflexivity.
    + vm_compute. reflexivity.
  - apply (errors_are_true _ (mapOrder mislabelled)).
    + split_and!; reflexivity.
    + vm_compute. reflexivity.
  - vm_compute. reflexivity.
  - vm_compute. reflexivity.
Defined.

(** ** The first finding of a validation *)

Lemma twoEmpty_orders : rangesOver twoEmpty firstA ∧ rangesOver twoEmpty firstB.
Proof.
  assert (map_to_list (Index twoEmpty) ≡ₚ indexOrder firstA) as Hp.
  { unfold twoEmpty, firstA. simpl.
    rewrite map_to_list_insert by done. by rewrite map_to_list_singleton. }
  split; (split_and!; simpl; [|by rewrite map_to_list_empty..]).
  - by rewrite Hp.
  - rewrite Hp. simpl. apply perm_swap.
Qed.

Section FirstFinding.
Context `{Environment}.

(** C7: validation stops at the first finding.  In whatever order the
    maps are ranged over, the consistency check returns the first finding
    in the sequence of its checks, whatever the checks after it would
    find; the file inventory returns the first finding of the walk, in
    particular the error of the walk itself; the consistency check does
    not contribute when the file inventory has a finding; validation
    succeeds exactly when both passes return nil; and whether the
    consistency check returns nil does not depend on the order. *)
Theorem validation_stops_at_first_finding d dbPath walk :
  (∀ o before err after, rangesOver d o →
     findingsIn o d = before ++ Some err :: after → (∀ r, r ∈ before → r = None) →
     checkInternalConsistencyIn o d = Some err) ∧
  (∀ before v after err,
     walk = before ++ v :: after → (∀ u, u ∈ before → visit d dbPath u = None) →
     visit d dbPath v = Some err →
     checkNoUnexpectedFiles d dbPath walk = Some err) ∧
  (∀ before v after err,
     walk = before ++ v :: after → (∀ u, u ∈ before → visit d dbPath u = None) →
     visitErr v = Some err →
     checkNoUnexpectedFiles d dbPath walk = Some (ErrWalk err)) ∧
  (∀ err, checkNoUnexpectedFiles d dbPath walk = Some err →
     validate d dbPath walk = Some err) ∧
  (validate d dbPath walk = None ↔
     checkNoUnexpectedFiles d dbPath walk = None ∧ checkInternalConsistency d = None) ∧
  (∀ o, rangesOver d o →
     checkInternalConsistencyIn o d = None ↔ checkInternalConsistency d = None).
Proof.
  split_and!.
  - intros o before err after _ Hf Hbefore.
    rewrite checkInternalConsistencyIn_findings, Hf. by apply forRange_first.
  - intros before v after err -> Hbefore Hv. by apply forRange_first.
  - intros before v after err -> Hbefore Hv. apply forRange_first; [done|].
    unfold visit. by rewrite Hv.
  - intros err Hf. unfold validate. by rewrite Hf.
  - unfold validate. apply andThen_None.
  - intros o Ho. by rewrite checkInternalConsistencyIn_None, checkInternalConsistency_None.
Qed.

End FirstFinding.

Lemma validation_stops_at_first_finding_example :
  checkInternalConsistencyIn firstA twoEmpty = Some (ErrNoModuleDirectory "a.example/m") ∧
  checkInternalConsistencyIn firstB twoEmpty = Some (ErrNoModuleDirectory "b.example/m") ∧
  checkNoUnexpectedFiles emptyModule "db" walkUnreadable = Some (ErrWalk "permission denied") ∧
  validate emptyModule "db" walkUnreadable = Some (ErrWalk "permission denied") ∧
  validate d1 "db" walk1 = None.
Proof.
  destruct (validation_stops_at_first_finding twoEmpty "db" walkUnreadable)
    as (Hfirst & _).
  destruct (validation_stops_at_first_finding emptyModule "db" walkUnreadable)
    as (_ & _ & Hwalk & Hfiles & _).
  destruct (validation_stops_at_first_finding d1 "db" walk1) as (_ & _ & _ & _ & Hboth & _).
  destruct twoEmpty_orders as [HA HB].
  assert (checkNoUnexpectedFiles emptyModule "db" walkUnreadable =
            Some (ErrWalk "permission denied")) as Hw.
  { apply (Hwalk [directory "db" "db"] unreadable
             [file "db/index.json" "index.json"; file "db/notes.txt" "notes.txt"]);
      [done | | done].
    intros u ->%list_elem_of_singleton. vm_compute; reflexivity. }
  split_and!.
  - apply (Hfirst firstA [None] _ [Some (ErrNoModuleDirectory "b.example/m")] HA);
      [vm_compute; reflexivity|].
    by intros r ->%list_elem_of_singleton.
  - apply (Hfirst firstB [None] _ [Some (ErrNoModuleDirectory "a.example/m")] HB);
      [vm_compute; reflexivity|].
    by intros r ->%list_elem_of_singleton.
  - done.
  - by apply Hfiles.
  - apply Hboth. split; vm_compute; reflexivity.
Defined.

(** ** Modules of the index and of the entries *)

Lemma consistent_dom d : consistent d → dom (Index d) = dom (EntriesByModule d).
Proof.
  intros Hc. apply set_subseteq_size_eq.
  - intros module [modified Hm]%elem_of_dom.
    destruct (cons_index d Hc module modified Hm) as (entries & He & _).
    apply elem_of_dom. by eexists.
  - rewrite !size_dom. by rewrite (cons_sizes d Hc).
Qed.

(** The check compares the number of modules of the index with the
    number of module lists and looks up every module of the index among
    the lists; an accepted database therefore has the same modules in
    both, none of them with an empty list, so that no list of entries goes
    without a timestamp in the index. *)
Theorem accepted_modules_coincide d :
  checkInternalConsistency d = None →
  dom (Index d) = dom (EntriesByModule d) ∧
  (∀ module, is_Some (Index d !! module) ↔ is_Some (EntriesByModule d !! module)) ∧
  (∀ module entries, EntriesByModule d !! module = Some entries →
     entries ≠ [] ∧ Index d !! module = Some (wantModifiedOf entries)).
Proof.
  intros Hc%checkInternalConsistency_None.
  pose proof (consistent_dom d Hc) as Hdom. split_and!.
  - done.
  - intros module. by rewrite <- !elem_of_dom, Hdom.
  - intros module entries He.
    assert (is_Some (Index d !! module)) as [modified Hm].
    { apply elem_of_dom. rewrite Hdom. apply elem_of_dom. by eexists. }
    destruct (cons_index d Hc module modified Hm) as (l & Hl & Hne & _ & ->).
    rewrite He in Hl. injection Hl as <-. done.
Qed.

Lemma accepted_modules_coincide_valid :
  dom (Index valid) = dom (EntriesByModule valid) ∧
  Index valid !! "example.com/module" = Some (wantModifiedOf [testOSV2; testOSV3]).
Proof.
  assert (checkInternalConsistency valid = None) as Hc by (vm_compute; reflexivity).
  destruct (accepted_modules_coincide valid Hc) as (Hdom & _ & Hlists).
  split; [done|]. apply Hlists. vm_compute. reflexivity.
Defined.

(** In an accepted database, an entry of the by-ID index with an affected
    package is stored under its own ID, and every module that it affects
    is a module of the index whose list contains the entry itself.  The
    loop over the entries looks for the key among the IDs of the list; the
    loop over the index has compared every listed entry with the one
    stored under its ID. *)
Theorem affected_modules_list_the_entry d id entry affected :
  checkInternalConsistency d = None →
  EntriesByID d !! id = Some entry → affected ∈ AffectedList entry →
  ID entry = id ∧
  is_Some (Index d !! Name (AffectedPackage affected)) ∧
  ∃ entries, EntriesByModule d !! Name (AffectedPackage affected) = Some entries ∧
    entry ∈ entries.
Proof.
  intros Hc%checkInternalConsistency_None Hid Ha.
  destruct (cons_affected d Hc id entry affected Hid Ha) as (entries & He & g & Hg & Hgid).
  assert (is_Some (Index d !! Name (AffectedPackage affected))) as [modified Hm].
  { apply elem_of_dom. rewrite (consistent_dom d Hc). apply elem_of_dom. by eexists. }
  destruct (cons_index d Hc _ modified Hm) as (l & Hl & _ & Hall & _).
  rewrite He in Hl. injection Hl as <-.
  pose proof (Hall g Hg) as Hby. rewrite Hgid, Hid in Hby. injection Hby as ->.
  split_and!; [done | by eexists | by exists entries].
Qed.

Lemma affected_modules_list_the_entry_valid :
  ID testOSV3 = "GO-2000-0003" ∧
  is_Some (Index valid !! "example.com/module") ∧
  ∃ entries, EntriesByModule valid !! "example.com/module" = Some entries ∧
    testOSV3 ∈ entries.
Proof.
  apply (affected_modules_list_the_entry valid "GO-2000-0003" testOSV3
           {| AffectedPackage := {| Name := "example.com/module"; Ecosystem := "Go" |};
              Ranges := [semverRange [introduced "0"; fixed "1.1.0"]];
              DatabaseSpecificURL := "https://pkg.go.dev/vuln/GO-2000-0003";
              Imports := [{| Path := "example.com/module/package";
                             Symbols := ["Symbol"] |}] |}).
  - vm_compute. reflexivity.
  - vm_compute. reflexivity.
  - apply list_elem_of_singleton. reflexivity.
Defined.

(** When an affected module of an entry of the by-ID index has no list,
    an empty list, or a list without the ID, the finding for the entry is
    the error for that module, and the check fails. *)
Theorem affected_module_must_list_the_ID d id entry affected :
  EntriesByID d !! id = Some entry → affected ∈ AffectedList entry →
  (noneOrEmpty (EntriesByModule d !! Name (AffectedPackage affected)) →
     checkAffected d id affected =
       Some (ErrModuleNotFound (Name (AffectedPackage affected)) id)) ∧
  (∀ entries, EntriesByModule d !! Name (AffectedPackage affected) = Some entries →
     entries ≠ [] → (∀ g, g ∈ entries → ID g ≠ id) →
     checkAffected d id affected =
       Some (ErrNoEntryInModule id (Name (AffectedPackage affected)))) ∧
  (checkAffected d id affected ≠ None → ∃ err, checkInternalConsistency d = Some err).
Proof.
  intros Hid Ha. split_and!.
  - unfold checkAffected. by intros [-> | ->].
  - intros entries He Hne Hall. unfold checkAffected. rewrite He.
    destruct entries as [|e l]; [done|].
    by rewrite (proj2 (foundEntry_false id (e :: l)) Hall).
  - intros Hc. apply rejected. intros Hcons. apply Hc.
    apply checkAffected_None. by eapply cons_affected.
Qed.

Lemma affected_module_must_list_the_ID_example :
  checkAffected missingModule "GO-1999-0001" affectedStdlib =
    Some (ErrModuleNotFound "stdlib" "GO-1999-0001") ∧
  ∃ err, checkInternalConsistency missingModule = Some err.
Proof.
  destruct (affected_module_must_list_the_ID missingModule "GO-1999-0001" testOSV1
              affectedStdlib) as (Hnone & _ & Hfail).
  - vm_compute. reflexivity.
  - apply list_elem_of_singleton. reflexivity.
  - assert (checkAffected missingModule "GO-1999-0001" affectedStdlib =
              Some (ErrModuleNotFound "stdlib" "GO-1999-0001")) as Hc.
    { apply Hnone. left. vm_compute. reflexivity. }
    split; [done|]. apply Hfail. by rewrite Hc.
Defined.

(** ** The whole file inventory *)

Section FileInventoryMore.
Context `{Environment}.

Lemma visit_None d dbPath v : visit d dbPath v = None ↔ expected d dbPath v.
Proof.
  unfold expected. destruct (visitErr v) as [err|] eqn:Herr.
  { unfold visit. rewrite Herr. split; [done | by intros [? _]]. }
  destruct (visitIsDir v) eqn:Hdir.
  { unfold visit. rewrite Herr, Hdir. split; [|done]. intros _. split; [done | by left]. }
  destruct (decide (passedOver dbPath v)) as [Hp|Hp].
  { rewrite visit_passedOver by done. split; [|done]. intros _. split; [done|].
    right. by left. }
  rewrite visit_checked by done.
  destruct (String.eqb (Ext (visitName v)) ".json") eqn:Hext; simpl.
  2:{ apply String.eqb_neq in Hext. split; [done|].
      intros (_ & [?|[?|[? _]]]); done. }
  apply String.eqb_eq in Hext.
  destruct (String.eqb (Dir (visitPath v)) (Join dbPath idDirectory)) eqn:Hid.
  - apply String.eqb_eq in Hid.
    destruct (String.eqb (visitName v) indexFile) eqn:Hidx.
    + apply String.eqb_eq in Hidx. split; [|done]. intros _. split; [done|].
      right. right. split; [done|]. left. split; [done | by left].
    + apply String.eqb_neq in Hidx.
      destruct (EntriesByID d !! GetGoIDFromFilename (visitName v)) as [e|] eqn:He.
      * split; [|done]. intros _. split; [done|].
        right. right. split; [done|]. left. split; [done|]. right. by eexists.
      * split; [done|]. intros (_ & [?|[?|[_ [[_ [?|Hs]]|[? _]]]]]); try done.
        all: by destruct Hs.
  - apply String.eqb_neq in Hid.
    destruct (UnescapeModulePath _) as [err|unescaped] eqn:Hu.
    + split; [done|]. intros (_ & [?|[?|[_ [[? _]|[_ (u & [=] & _)]]]]]); done.
    + destruct (EntriesByModule d !! unescaped) as [l|] eqn:Hm.
      * split; [|done]. intros _. split; [done|].
        right. right. split; [done|]. right. split; [done|].
        exists unescaped. split; [done|]. rewrite Hm. by eexists.
      * split; [done|]. intros (_ & [?|[?|[_ [[? _]|[_ (u & [= <-] & Hs)]]]]]); try done.
        rewrite Hm in Hs. by destruct Hs.
Qed.



(** A file with the extension .json in the ID directory that is not
    passed over has no finding exactly when it is the index file or the
    ID that its name decodes to is a key of [EntriesByID]; the finding is
    the error for that ID otherwise.  The index file of the ID directory
    is accepted whatever the database. *)
Theorem ID_files_are_known d dbPath v :
  visitErr v = None → visitIsDir v = false → ¬ passedOver dbPath v →
  Ext (visitName v) = ".json" → Dir (visitPath v) = Join dbPath idDirectory →
  (visit d dbPath v = None ↔
     visitName v = indexFile ∨
     is_Some (EntriesByID d !! GetGoIDFromFilename (visitName v))) ∧
  (visitName v ≠ indexFile →
     EntriesByID d !! GetGoIDFromFilename (visitName v) = None →
     visit d dbPath v = Some (ErrUnexpectedID (GetGoIDFromFilename (visitName v)))) ∧
  (visitName v = indexFile → ∀ d', visit d' dbPath v = None).
Proof.
  intros Herr Hdir Hp Hext Hid. split_and!.
  - rewrite visit_None. unfold expected. split.
    + intros (_ & [?|[?|[_ [[_ ?]|[? _]]]]]); (done || congruence).
    + intros Hor. split; [done|]. right. right. split; [done|]. by left.
  - intros Hidx Hnone. rewrite visit_checked by done.
    rewrite (proj2 (String.eqb_eq _ _) Hext), (proj2 (String.eqb_eq _ _) Hid). simpl.
    rewrite (proj2 (String.eqb_neq _ _) Hidx). by rewrite Hnone.
  - intros Hidx d'. apply visit_None. split; [done|].
    right. right. split; [done|]. left. split; [done | by left].
Qed.

End FileInventoryMore.

Lemma ID_files_are_known_example :
  visit d1 "db" (file "db/ID/GO-1999-0001.json" "GO-1999-0001.json") = None ∧
  visit d1 "db" (file "db/ID/GO-2000-0002.json" "GO-2000-0002.json") =
    Some (ErrUnexpectedID "GO-2000-0002").
Proof.
  assert (∀ name, name ≠ "index.json" → name ≠ "aliases.json" → Ext name = ".json" →
            ¬ passedOver "db" (file ("db/ID/" +:+ name) name)) as Hnot.
  { intros name Hi Ha Hext [_ Hp]. simpl in Hp. rewrite Hext in Hp.
    destruct Hp as [?|[?|[?|[?|?]]]]; done. }
  split.
  - destruct (ID_files_are_known d1 "db" (file "db/ID/GO-1999-0001.json" "GO-1999-0001.json"))
      as (Hiff & _); [done | done | by apply (Hnot "GO-1999-0001.json") | done | done |].
    apply Hiff. right. vm_compute. eauto.
  - destruct (ID_files_are_known d1 "db" (file "db/ID/GO-2000-0002.json" "GO-2000-0002.json"))
      as (_ & Herr & _); [done | done | by apply (Hnot "GO-2000-0002.json") | done | done |].
    apply Herr; [done | vm_compute; reflexivity].
Defined.

(** * Further properties of [report.Version] *)

(** [Version.Before] is a strict weak ordering: no version is before
    itself, two versions are never before each other, and both "before"
    and "not before" are transitive.  Sorting by it and taking maxima
    with it are therefore well defined up to versions that compare as
    equal. *)
Theorem Before_strict_weak_order u v w :
  Before v v = false ∧
  (Before u v = true → Before v u = false) ∧
  (Before u v = true → Before v w = true → Before u w = true) ∧
  (Before u v = false → Before v w = false → Before u w = false) ∧
  (Before u v = false → Before v u = false → Before u w = Before v w ∧ Before w u = Before w v).
Proof.
  split_and!.
  - apply Before_irrefl.
  - intros Huv. destruct (Before v u) eqn:Hvu; [|done].
    pose proof (Before_trans _ _ _ Huv Hvu) as Huu. by rewrite Before_irrefl in Huu.
  - apply Before_trans.
  - apply not_Before_trans.
  - intros Huv Hvu. split.
    + destruct (Before u w) eqn:Huw, (Before v w) eqn:Hvw; try done.
      * by rewrite (not_Before_trans _ _ _ Huv Hvw) in Huw.
      * by rewrite (not_Before_trans _ _ _ Hvu Huw) in Hvw.
    + destruct (Before w u) eqn:Hwu, (Before w v) eqn:Hwv; try done.
      * by rewrite (not_Before_trans _ _ _ Hwv Hvu) in Hwu.
      * by rewrite (not_Before_trans _ _ _ Hwu Huv) in Hwv.
Qed.

(** A version that is not valid is before exactly the valid ones, and
    nothing is before it: the empty version, which stands for no
    version, is before every valid version. *)
Theorem invalid_versions_come_first v w :
  (IsValid v = false → Before v w = IsValid w) ∧
  (IsValid w = false → Before v w = false) ∧
  (Before v w = true → IsValid w = true) ∧
  IsValid "" = false.
Proof.
  unfold IsValid, Before, Compare.
  destruct (parse (V v)) as [pv|], (parse (V w)) as [pw|]; simpl;
    split_and!; try done; try (by intros ?%bool_decide_eq_true).
Qed.

(** * Properties of the conversion of reports *)

Lemma foldl_snoc {A B} (f : A → B) (init : list B) (l : list A) :
  foldl (λ acc x, acc ++ [f x]) init l = init ++ (f <$> l).
Proof.
  revert init. induction l as [|x l IH]; intros init; simpl.
  - by rewrite app_nil_r.
  - by rewrite IH, <- app_assoc.
Qed.

Lemma replaceNewlines_no_newline inRun s : newline ∉ replaceNewlines inRun s.
Proof.
  revert inRun. induction s as [|c s IH]; intros inRun; simpl.
  - apply not_elem_of_nil.
  - destruct (Ascii.eqb c newline) eqn:Hc.
    + destruct inRun; [apply IH|]. apply not_elem_of_cons. split; [done | apply IH].
    + apply Ascii.eqb_neq in Hc. apply not_elem_of_cons. split; [congruence | apply IH].
Qed.

Lemma replaceNewlines_id inRun s : newline ∉ s → replaceNewlines inRun s = s.
Proof.
  revert inRun. induction s as [|c s IH]; intros inRun; simpl; [done|].
  intros [Hc Hs]%not_elem_of_cons.
  rewrite (proj2 (Ascii.eqb_neq c newline)) by congruence. by rewrite IH.
Qed.

Lemma replaceNewlines_length inRun s :
  (length (replaceNewlines inRun s) ≤ length s)%nat.
Proof.
  revert inRun. induction s as [|c s IH]; intros inRun; simpl; [done|].
  destruct (Ascii.eqb c newline); [destruct inRun|]; simpl;
    [specialize (IH true) | specialize (IH true) | specialize (IH false)]; lia.
Qed.

Lemma replaceNewlines_keeps inRun s :
  (filter (λ c, c ≠ newline) s) `sublist_of` (replaceNewlines inRun s).
Proof.
  revert inRun. induction s as [|c s IH]; intros inRun; simpl; [done|].
  destruct (Ascii.eqb c newline) eqn:Hc.
  - apply Ascii.eqb_eq in Hc as ->. rewrite filter_cons_False by (by intros ?).
    destruct inRun; [apply IH|]. apply sublist_cons, IH.
  - apply Ascii.eqb_neq in Hc. rewrite filter_cons_True by done.
    apply sublist_skip, IH.
Qed.

Lemma length_list_ascii_of_string s :
  length (String.list_ascii_of_string s) = String.length s.
Proof. induction s as [|c s IH]; simpl; [done | by rewrite IH]. Qed.

Section ConversionFacts.
Context `{Environment} `{ReportEnvironment}.

Lemma removeNewlines_no_newline s :
  newline ∉ String.list_ascii_of_string (removeNewlines s).
Proof.
  unfold removeNewlines. rewrite String.list_ascii_of_string_of_list_ascii.
  apply replaceNewlines_no_newline.
Qed.

(** The result of [removeNewlines] has no newline.  It is the trimmed
    string itself when that has no newline, is never longer than the
    trimmed string, and keeps the characters of the trimmed string other
    than newlines, in their order. *)
Theorem removeNewlines_removes_newlines s :
  (newline ∉ String.list_ascii_of_string (removeNewlines s)) ∧
  (newline ∉ String.list_ascii_of_string (TrimSpace s) → removeNewlines s = TrimSpace s) ∧
  (String.length (removeNewlines s) ≤ String.length (TrimSpace s))%nat ∧
  (filter (λ c, c ≠ newline) (String.list_ascii_of_string (TrimSpace s)))
    `sublist_of` (String.list_ascii_of_string (removeNewlines s)).
Proof.
  unfold removeNewlines. rewrite String.list_ascii_of_string_of_list_ascii. split_and!.
  - apply replaceNewlines_no_newline.
  - intros Hno. rewrite replaceNewlines_id by done.
    apply String.string_of_list_ascii_of_string.
  - rewrite <- !length_list_ascii_of_string.
    rewrite String.list_ascii_of_string_of_list_ascii. apply replaceNewlines_length.
  - apply replaceNewlines_keeps.
Qed.

Lemma versionToVersion_items versions :
  versionToVersion versions = versions ≫= versionItems.
Proof.
  unfold versionToVersion.
  assert (∀ data, foldl appendVersionRange data versions = data ++ (versions ≫= versionItems))
    as Hgen; [|apply (Hgen [])].
  induction versions as [|vr versions IH]; intros data; simpl.
  - by rewrite app_nil_r.
  - rewrite IH. unfold appendVersionRange, versionItems.
    destruct (String.eqb_spec (report.Introduced vr) "") as [Hi|Hi],
             (String.eqb_spec (report.Fixed vr) "") as [Hf|Hf]; simpl;
      rewrite ?(bool_decide_eq_true_2 _ Hi), ?(bool_decide_eq_false_2 _ Hi),
        ?(bool_decide_eq_true_2 _ Hf), ?(bool_decide_eq_false_2 _ Hf); simpl;
      by rewrite <- ?app_assoc.
Qed.

(** [versionToVersion] never gives an item with an empty version.  Its
    items with ">=" are the introduced versions of the ranges that are
    not empty, in their order, and its items with "<" the fixed versions
    that are not empty; there is no other item. *)
Theorem versionToVersion_skips_empty_versions versions :
  (∀ item, item ∈ versionToVersion versions →
     cveschema.VersionValue item ≠ "" ∧
     (cveschema.VersionAffected item = ">=" ∨ cveschema.VersionAffected item = "<")) ∧
  valuesWith ">=" (versionToVersion versions) = nonEmpty (report.Introduced <$> versions) ∧
  valuesWith "<" (versionToVersion versions) = nonEmpty (report.Fixed <$> versions) ∧
  length (versionToVersion versions) =
    length (nonEmpty (report.Introduced <$> versions)) +
    length (nonEmpty (report.Fixed <$> versions)).
Proof.
  rewrite versionToVersion_items. split_and!.
  - intros item (vr & Hitem & _)%list_elem_of_bind. unfold versionItems in Hitem.
    apply elem_of_app in Hitem as [Hitem|Hitem]; case_bool_decide;
      try (by apply elem_of_nil in Hitem);
      apply list_elem_of_singleton in Hitem as ->; simpl; split; auto.
  - unfold valuesWith, nonEmpty. induction versions as [|vr versions IH]; [done|].
    rewrite fmap_cons, !bind_cons, bind_app, IH. f_equal.
    unfold versionItems. repeat case_bool_decide; simpl; repeat case_bool_decide; done.
  - unfold valuesWith, nonEmpty. induction versions as [|vr versions IH]; [done|].
    rewrite fmap_cons, !bind_cons, bind_app, IH. f_equal.
    unfold versionItems. repeat case_bool_decide; simpl; repeat case_bool_decide; done.
  - unfold nonEmpty. induction versions as [|vr versions IH]; [done|].
    rewrite !fmap_cons, !bind_cons, !length_app, IH.
    unfold versionItems. repeat case_bool_decide; simpl; lia.
Qed.

End ConversionFacts.

Section ToCVEFacts.
Context `{Environment} `{ReportEnvironment}.

(** [ToCVE] returns the error of [ReadAndLint], or the error for the
    missing CVE metadata, wrapped with its own message, and otherwise a
    CVE record.  The record has the ID of the metadata; one vendor per
    module of the report and one product per package of the module, each
    with the version data of the module; the URLs of the references of
    the report followed by the link of the Go advisory, so never an empty
    list of references; and a description and a credit without newlines,
    the description being that of the metadata unless it is empty. *)
Theorem ToCVE_converts ReadAndLint reportPath :
  (∀ err, ReadAndLint reportPath = inl err →
     ToCVE ReadAndLint reportPath = inl (Wrapped "report.ToCVE(%q)" reportPath err)) ∧
  (∀ r, ReadAndLint reportPath = inr r → report.CVEMetadata r = None →
     ToCVE ReadAndLint reportPath =
       inl (Wrapped "report.ToCVE(%q)" reportPath ErrNoCVEMetadata)) ∧
  (∀ r meta, ReadAndLint reportPath = inr r → report.CVEMetadata r = Some meta →
     ∃ c, ToCVE ReadAndLint reportPath = inr c ∧
       cveschema.MetadataID c = report.ID meta ∧
       cveschema.Affects c =
         (λ m, {| cveschema.VendorName := getVendor (report.ModulePath m);
                  cveschema.Product :=
                    (λ p, {| cveschema.ProductName := report.PackagePath p;
                             cveschema.Version := versionToVersion (report.Versions m) |})
                      <$> report.Packages m |}) <$> report.Modules r ∧
       cveschema.References c =
         (report.URL <$> report.References r) ++
         [GetGoAdvisoryLink (GetGoIDFromFilename reportPath)] ∧
       cveschema.Description c =
         [{| cveschema.Lang := "eng";
             cveschema.Value :=
               removeNewlines (if bool_decide (report.MetaDescription meta = "")
                               then report.Description r
                               else report.MetaDescription meta) |}] ∧
       (∀ text, text ∈ cveschema.Description c ++ cveschema.RawCredit c →
          newline ∉ String.list_ascii_of_string (cveschema.Value text))).
Proof.
  unfold ToCVE. split_and!.
  - by intros err ->.
  - intros r -> Hmeta. unfold toCVE. by rewrite Hmeta.
  - intros r meta -> Hmeta. unfold toCVE. rewrite Hmeta. eexists. split; [done|].
    simpl. split_and!.
    + done.
    + rewrite (foldl_snoc
        (λ m, {| cveschema.VendorName := getVendor (report.ModulePath m);
                 cveschema.Product :=
                   foldl (λ pkgData p,
                            pkgData ++
                            [{| cveschema.ProductName := report.PackagePath p;
                                cveschema.Version := versionToVersion (report.Versions m) |}])
                         [] (report.Packages m) |})). simpl.
      apply list_fmap_ext. intros i m _. f_equal.
      by rewrite (foldl_snoc
        (λ p, {| cveschema.ProductName := report.PackagePath p;
                 cveschema.Version := versionToVersion (report.Versions m) |})).
    + by rewrite (foldl_snoc report.URL).
    + destruct (String.eqb_spec (report.MetaDescription meta) "") as [He|He].
      * by rewrite bool_decide_eq_true_2.
      * by rewrite bool_decide_eq_false_2.
    + intros text [->|[->|?%elem_of_nil]%elem_of_cons]%elem_of_cons; [| |done];
        simpl; apply removeNewlines_no_newline.
Qed.

Lemma addPackageTODOs_filled p : filledPackage (addPackageTODOs p).
Proof.
  unfold filledPackage, addPackageTODOs. simpl. split.
  - destruct (String.eqb_spec (report.PackagePath p) ""); done.
  - by destruct (report.Symbols p).
Qed.

Lemma addModuleTODOs_filled m : filledModule (addModuleTODOs m).
Proof.
  unfold filledModule, addModuleTODOs. simpl. split_and!.
  - destruct (String.eqb_spec (report.ModulePath m) ""); done.
  - by destruct (report.Versions m).
  - destruct (String.eqb_spec (report.VulnerableAt m) ""); done.
  - intros p (p0 & -> & _)%list_elem_of_fmap. apply addPackageTODOs_filled.
Qed.

Lemma addPackageTODOs_id p : filledPackage p → addPackageTODOs p = p.
Proof.
  destruct p as [path symbols]. unfold filledPackage, addPackageTODOs. simpl.
  intros [Hp Hs]. rewrite (proj2 (String.eqb_neq _ _) Hp). by destruct symbols.
Qed.

Lemma addModuleTODOs_id m : filledModule m → addModuleTODOs m = m.
Proof.
  destruct m as [path versions at_ packages]. unfold filledModule, addModuleTODOs. simpl.
  intros (Hp & Hv & Ha & Hpk).
  rewrite (proj2 (String.eqb_neq _ _) Hp), (proj2 (String.eqb_neq _ _) Ha).
  destruct versions; [done|]. f_equal.
  induction packages as [|p packages IH]; [done|]. rewrite fmap_cons.
  rewrite addPackageTODOs_id by (apply Hpk; left).
  f_equal. apply IH. intros q Hq. apply Hpk. by right.
Qed.

(** After [addTODOs], a report that is not excluded has no unfilled
    field: it has a module, every module has a path, versions and a
    vulnerable version, every package a path and symbols, and the report a
    description, a credit and a CVE.  Its references are those from
    before followed by the five references to fill in. *)
Theorem addTODOs_fills_every_field r :
  report.Excluded r = "" →
  filledReport (addTODOs r) ∧
  report.References (addTODOs r) = report.References r ++ todoReferences ∧
  length (report.Modules (addTODOs r)) = max 1 (length (report.Modules r)) ∧
  report.GHSAs (addTODOs r) = report.GHSAs r ∧
  report.CVEMetadata (addTODOs r) = report.CVEMetadata r.
Proof.
  intros Hex. unfold addTODOs. rewrite Hex. simpl. split_and!; try done.
  - unfold filledReport. simpl. split_and!.
    + by destruct (report.Modules r).
    + intros m (m0 & -> & _)%list_elem_of_fmap. apply addModuleTODOs_filled.
    + destruct (String.eqb_spec (report.Description r) ""); done.
    + destruct (String.eqb_spec (report.Credit r) ""); done.
    + by destruct (report.CVEs r).
  - rewrite length_fmap. by destruct (report.Modules r).
Qed.

(** [addTODOs] leaves an excluded report as it is, and changes nothing
    but the references of a report without an unfilled field; it adds the
    five references at every call, also to a report that has them. *)
Theorem addTODOs_keeps_what_is_filled r :
  (report.Excluded r ≠ "" → addTODOs r = r) ∧
  (report.Excluded r = "" → filledReport r →
     addTODOs r =
       {| report.Excluded := report.Excluded r; report.Modules := report.Modules r;
          report.Description := report.Description r; report.CVEs := report.CVEs r;
          report.GHSAs := report.GHSAs r; report.Credit := report.Credit r;
          report.References := report.References r ++ todoReferences;
          report.CVEMetadata := report.CVEMetadata r |}) ∧
  (report.Excluded r = "" →
     length (report.References (addTODOs (addTODOs r))) =
       length (report.References r) + 10).
Proof.
  split_and!.
  - intros Hex. unfold addTODOs. by rewrite (proj2 (String.eqb_neq _ _) Hex).
  - intros Hex (Hm & Hall & Hd & Hc & Hcve). unfold addTODOs. rewrite Hex. simpl.
    rewrite (proj2 (String.eqb_neq _ _) Hd), (proj2 (String.eqb_neq _ _) Hc).
    f_equal.
    + destruct (report.Modules r) as [|m0 ms] eqn:Hms; [done|].
      clear Hm. revert Hall. generalize (m0 :: ms). intros l Hall.
      induction l as [|m l IH]; [done|]. rewrite fmap_cons.
      rewrite addModuleTODOs_id by (apply Hall; left).
      f_equal. apply IH. intros q Hq. apply Hall. by right.
    + by destruct (report.CVEs r).
  - intros Hex. unfold addTODOs at 1.
    assert (report.Excluded (addTODOs r) = "") as ->.
    { unfold addTODOs. by rewrite Hex. }
    simpl. unfold addTODOs. rewrite Hex. simpl. rewrite !length_app. simpl. lia.
Qed.

End ToCVEFacts.

(** * The canonical form of a version *)

Lemma takeWhile_dropWhile {A} (p : A → bool) l : takeWhile p l ++ dropWhile p l = l.
Proof. induction l as [|x l IH]; simpl; [done|]. destruct (p x); simpl; by rewrite ?IH. Qed.

Lemma takeWhile_true {A} (p : A → bool) l x : x ∈ takeWhile p l → p x = true.
Proof.
  induction l as [|y l IH]; simpl; [by intros ?%elem_of_nil|].
  destruct (p y) eqn:Hy; [|by intros ?%elem_of_nil].
  intros [->|Hx]%elem_of_cons; auto.
Qed.

Lemma dropWhile_stops {A} (p : A → bool) l : stops p (dropWhile p l).
Proof. induction l as [|x l IH]; simpl; [done|]. by destruct (p x) eqn:Hx. Qed.

Lemma takeWhile_app_stops {A} (p : A → bool) ds r :
  (∀ x, x ∈ ds → p x = true) → stops p r →
  takeWhile p (ds ++ r) = ds ∧ dropWhile p (ds ++ r) = r.
Proof.
  intros Hds Hr. induction ds as [|d ds IH]; simpl.
  - destruct r as [|c r]; [done|]. simpl in *. by rewrite Hr.
  - rewrite (Hds d) by left. destruct IH as [-> ->]; [|done].
    intros x Hx. apply Hds. by right.
Qed.

(** The digits that [parseInt] reads give the same number in front of
    anything that is not a digit. *)
Lemma parseInt_inv v n r :
  parseInt v = Some (n, r) →
  ∃ ds, v = ds ++ r ∧ ds ≠ [] ∧ stops isDigit r ∧
    ∀ r', stops isDigit r' → parseInt (ds ++ r') = Some (n, r').
Proof.
  unfold parseInt. intros Hp. exists (takeWhile isDigit v).
  assert (r = dropWhile isDigit v ∧ takeWhile isDigit v ≠ []) as [-> Hne].
  { destruct (takeWhile isDigit v) as [|c more]; [done|].
    destruct (_ && _); [done|]. by simplify_eq. }
  split_and!; [by rewrite takeWhile_dropWhile | done | apply dropWhile_stops |].
  intros r' Hr'.
  destruct (takeWhile_app_stops isDigit (takeWhile isDigit v) r') as [-> ->];
    [apply takeWhile_true | done |].
  destruct (takeWhile isDigit v) as [|c more]; [done|].
  destruct (_ && _); [done|]. by simplify_eq.
Qed.

Lemma takeWhile_idemp {A} (p : A → bool) l :
  takeWhile p (takeWhile p l) = takeWhile p l ∧ dropWhile p (takeWhile p l) = [].
Proof.
  induction l as [|x l [IH1 IH2]]; simpl; [done|].
  destruct (p x) eqn:Hx; simpl; [|done]. by rewrite Hx, IH1, IH2.
Qed.

(** A tail with build metadata is a tail without, followed by the build
    metadata. *)
Lemma parseTailWhole_inv v pre build :
  parseTailWhole v = Some (pre, build) →
  ∃ t, v = t ++ build ∧ parseTailWhole t = Some (pre, []) ∧ stops isDigit t.
Proof.
  unfold parseTailWhole.
  destruct v as [|c v'].
  { simpl. intros [= <- <-]. by exists []. }
  destruct (Ascii.eqb_spec c "-"%char) as [->|Hc].
  - unfold parsePrerelease. simpl.
    set (notPlus := λ c, negb (Ascii.eqb c "+")).
    destruct (_ && _) eqn:Hok; simpl; [|done].
    destruct (dropWhile notPlus v') as [|c rest] eqn:Hrest.
    + intros [= <- <-]. exists ("-"%char :: v'). split_and!; [by rewrite app_nil_r| |done].
      simpl. fold notPlus. rewrite Hok. simpl. by rewrite Hrest.
    + destruct (Ascii.eqb_spec c "+"%char) as [->|Hplus].
      * destruct (parseBuild rest); [|done]. intros [= <- <-].
        exists ("-"%char :: takeWhile notPlus v'). split_and!.
        -- simpl. by rewrite <- Hrest, takeWhile_dropWhile.
        -- simpl. fold notPlus.
           destruct (takeWhile_idemp notPlus v') as [-> ->]. by rewrite Hok.
        -- done.
      * pose proof (dropWhile_stops notPlus v') as Hs. rewrite Hrest in Hs.
        simpl in Hs. unfold notPlus in Hs. apply negb_false_iff, Ascii.eqb_eq in Hs.
        done.
  - assert (match c :: v' with
            | "-"%char :: v'0 => parsePrerelease v'0
            | _ => Some ([], c :: v')
            end = Some ([], c :: v')) as ->.
    { destruct c as [[] [] [] [] [] [] [] []]; done. }
    simpl. destruct (Ascii.eqb_spec c "+"%char) as [->|Hplus].
    + destruct (parseBuild v'); [|done]. intros [= <- <-]. by exists [].
    + destruct c as [[] [] [] [] [] [] [] []]; done.
Qed.

(** A version that parses is the prefix, a body and the build metadata;
    the body with the suffix that it lacks parses to the same numbers and
    pre-release, lacks nothing and has no build metadata. *)
Lemma parseChars_inv chars p short build :
  parseChars chars = Some (p, short, build) →
  ∃ body, chars = "v"%char :: body ++ build ∧ body ≠ [] ∧
    (build ≠ [] → short = []) ∧
    parseChars ("v"%char :: body ++ short) = Some (p, [], []).
Proof.
  destruct chars as [|c0 v1]; [done|].
  destruct (Ascii.eqb_spec c0 "v"%char) as [->|Hc0];
    [|destruct c0 as [[] [] [] [] [] [] [] []]; done].
  simpl. destruct (parseInt v1) as [[major r1]|] eqn:H1; simpl; [|done].
  apply parseInt_inv in H1 as (ds1 & -> & Hne1 & Hs1 & Hfwd1).
  destruct r1 as [|c1 v2].
  { intros [= <- <- <-]. exists ds1. split_and!; [done | done | done |].
    rewrite (Hfwd1 ["."%char; "0"%char; "."%char; "0"%char]) by done.
    reflexivity. }
  destruct (Ascii.eqb_spec c1 "."%char) as [->|Hc1];
    [|destruct c1 as [[] [] [] [] [] [] [] []]; done].
  destruct (parseInt v2) as [[minor r2]|] eqn:H2; simpl; [|done].
  apply parseInt_inv in H2 as (ds2 & -> & Hne2 & Hs2 & Hfwd2).
  destruct r2 as [|c2 v3].
  { intros [= <- <- <-]. exists (ds1 ++ "."%char :: ds2). split_and!.
    - by rewrite !app_nil_r.
    - by destruct ds1.
    - done.
    - rewrite <- app_assoc. simpl.
      rewrite (Hfwd1 ("."%char :: ds2 ++ ["."%char; "0"%char])) by done.
      simpl. rewrite (Hfwd2 ["."%char; "0"%char]) by done.
      reflexivity. }
  destruct (Ascii.eqb_spec c2 "."%char) as [->|Hc2];
    [|destruct c2 as [[] [] [] [] [] [] [] []]; done].
  destruct (parseInt v3) as [[patch r3]|] eqn:H3; simpl; [|done].
  apply parseInt_inv in H3 as (ds3 & -> & Hne3 & Hs3 & Hfwd3).
  destruct (parseTailWhole r3) as [[pre build']|] eqn:Ht; simpl; [|done].
  intros [= <- <- <-].
  apply parseTailWhole_inv in Ht as (t & -> & Ht & Hst).
  exists (ds1 ++ "."%char :: ds2 ++ "."%char :: ds3 ++ t). split_and!.
  - f_equal. rewrite <- !app_assoc. simpl. rewrite <- !app_assoc. simpl.
    by rewrite <- !app_assoc.
  - by destruct ds1.
  - done.
  - rewrite app_nil_r.
    rewrite (Hfwd1 ("."%char :: ds2 ++ "."%char :: ds3 ++ t)) by done. simpl.
    rewrite (Hfwd2 ("."%char :: ds3 ++ t)) by done. simpl.
    rewrite (Hfwd3 t) by done. simpl. by rewrite Ht.
Qed.

Lemma take_app_minus {A} (l b : list A) : take (length (l ++ b) - length b) (l ++ b) = l.
Proof.
  rewrite length_app. replace (length l + length b - length b) with (length l) by lia.
  by rewrite take_app_length.
Qed.

(** The characters of the canonical form. *)
Lemma canonical_chars body short build :
  body ≠ [] → (build ≠ [] → short = []) →
  (if negb (bool_decide (build = []))
   then take (length ("v"%char :: body ++ build) - length build) ("v"%char :: body ++ build)
   else if negb (bool_decide (short = [])) then ("v"%char :: body ++ build) ++ short
   else "v"%char :: body ++ build) = "v"%char :: body ++ short.
Proof.
  intros Hbody Hshort. case_bool_decide as Hb; simpl negb; cbv iota.
  - subst build. rewrite app_nil_r. case_bool_decide as Hs; simpl negb; cbv iota.
    + subst short. by rewrite app_nil_r.
    + done.
  - rewrite (Hshort Hb), app_nil_r.
    apply (take_app_minus ("v"%char :: body) build).
Qed.

Lemma parseTail_whole v : parseTail v = fst <$> parseTailWhole v.
Proof.
  unfold parseTail, parseTailWhole.
  destruct (match v with
            | "-"%char :: v' => parsePrerelease v'
            | _ => Some ([], v)
            end) as [[pre r]|]; simpl; [|done].
  destruct r as [|c r]; [done|].
  destruct (Ascii.eqb_spec c "+"%char) as [->|Hc].
  - by destruct (parseBuild r).
  - destruct c as [[] [] [] [] [] [] [] []]; done.
Qed.

(** [parse] is [parseChars] without the suffix and the build metadata. *)
Lemma parse_parseChars v :
  parse v = (λ whole, whole.1.1) <$> parseChars (String.list_ascii_of_string v).
Proof.
  unfold parse, parseChars.
  destruct (String.list_ascii_of_string v) as [|c0 v1]; [done|].
  destruct (Ascii.eqb_spec c0 "v"%char) as [->|Hc0];
    [|destruct c0 as [[] [] [] [] [] [] [] []]; done].
  destruct (parseInt v1) as [[major r1]|]; simpl; [|done].
  destruct r1 as [|c1 v2]; [done|].
  destruct (Ascii.eqb_spec c1 "."%char) as [->|Hc1];
    [|destruct c1 as [[] [] [] [] [] [] [] []]; done].
  destruct (parseInt v2) as [[minor r2]|]; simpl; [|done].
  destruct r2 as [|c2 v3]; [done|].
  destruct (Ascii.eqb_spec c2 "."%char) as [->|Hc2];
    [|destruct c2 as [[] [] [] [] [] [] [] []]; done].
  destruct (parseInt v3) as [[patch r3]|]; simpl; [|done].
  rewrite parseTail_whole. by destruct (parseTailWhole r3) as [[pre build]|].
Qed.

Lemma substring_whole s : String.substring 0 (String.length s) s = s.
Proof. induction s as [|c s IH]; simpl; [done | by rewrite IH]. Qed.

Lemma TrimPrefix_v s : TrimPrefix (String "v" s) "v" = s.
Proof.
  unfold TrimPrefix. simpl. rewrite Nat.sub_0_r.
  destruct s; simpl; [done|]. by rewrite substring_whole.
Qed.

(** [Version.Canonical] gives the empty string exactly for the versions
    that are not valid.  For a valid version it gives a valid version that
    compares as equal to it, so neither is before the other, and that
    lacks no minor or patch number and has no build metadata.  The
    canonical form of a canonical form is the same. *)
Theorem Canonical_is_canonical v :
  (Canonical v = "" ↔ IsValid v = false) ∧
  (IsValid v = true →
     IsValid (Canonical v) = true ∧
     Compare (V (Canonical v)) (V v) = Eq ∧
     Before (Canonical v) v = false ∧ Before v (Canonical v) = false ∧
     ∃ p, parseChars (String.list_ascii_of_string (V (Canonical v))) = Some (p, [], [])) ∧
  Canonical (Canonical v) = Canonical v.
Proof.
  assert (∀ w p, parseChars (String.list_ascii_of_string (V w)) = Some (p, [], []) →
                 Canonical w = w) as Hfix.
  { intros w p Hw. unfold Canonical, semverCanonical. rewrite Hw. simpl.
    rewrite String.string_of_list_ascii_of_string. apply TrimPrefix_v. }
  unfold IsValid. rewrite (parse_parseChars (V v)).
  destruct (parseChars (String.list_ascii_of_string (V v))) as [[[p short] build]|] eqn:Hp.
  - pose proof Hp as (body & Hchars & Hbody & Hshort & Hcanon)%parseChars_inv.
    assert (Canonical v = String.string_of_list_ascii (body ++ short)) as Hc.
    { unfold Canonical, semverCanonical. rewrite Hp, Hchars.
      rewrite canonical_chars by done. simpl. apply TrimPrefix_v. }
    assert (parseChars (String.list_ascii_of_string (V (Canonical v))) = Some (p, [], []))
      as Hpc.
    { rewrite Hc. unfold V.
      change (String.list_ascii_of_string ("v" +:+ ?s))
        with ("v"%char :: String.list_ascii_of_string s).
      by rewrite String.list_ascii_of_string_of_list_ascii. }
    assert (Compare (V (Canonical v)) (V v) = Eq) as Heq.
    { unfold Compare. rewrite !parse_parseChars, Hpc, Hp. simpl.
      apply (compare_refl compareParsed). }
    simpl. split_and!.
    + split; [|done]. rewrite Hc. intros Hnil.
      apply (f_equal String.list_ascii_of_string) in Hnil.
      rewrite String.list_ascii_of_string_of_list_ascii in Hnil. simpl in Hnil.
      by destruct body.
    + intros _. split_and!.
      * rewrite parse_parseChars, Hpc. done.
      * done.
      * apply Before_false. by rewrite Heq.
      * apply Before_false. unfold Compare in *.
        rewrite (compare_antisym (cmp := compareParses)), Heq. done.
      * by exists p.
    + by apply (Hfix _ p).
  - simpl. assert (Canonical v = "") as Hc.
    { unfold Canonical, semverCanonical. by rewrite Hp. }
    split_and!; [done | done |]. rewrite Hc. reflexivity.
Qed.

Lemma addTODOs_fills_every_field_blank :
  filledReport (addTODOs blankReport) ∧
  report.References (addTODOs blankReport) = todoReferences ∧
  length (report.Modules (addTODOs blankReport)) = 1.
Proof.
  destruct (addTODOs_fills_every_field blankReport) as (Hfilled & Hrefs & Hlen & _);
    [reflexivity|].
  split_and!; [exact Hfilled | exact Hrefs | exact Hlen].
Defined.
